(** * Verification of [features/posts/postsSlice.js]

    The posts slice of the Redux-toolkit tutorial (lesson 07): a normalized
    entity store for posts, the six RTK Query endpoints declared by
    [extendedApiSlice] and the derived selectors.  The endpoint callbacks are
    embedded from the JavaScript source; the library machinery they are
    plugged into (entity adapter, query cache, tag index, mutation executor,
    optimistic patches) is modelled separately and marked as such. *)

From Stdlib Require Import ZArith Lia Ascii String.
From stdpp Require Import gmap strings pretty sorting.

Local Open Scope string_scope.
Local Open Scope list_scope.
Local Open Scope Z_scope.

(* ===================================================================== *)
(** * JavaScript values                                                   *)
(* ===================================================================== *)

(** The [reactions] object of a post: five numeric counters. *)
Record Reactions := mkReactions {
  thumbsUp : Z;
  wow : Z;
  heart : Z;
  rocket : Z;
  coffee : Z
}.

(** The object literal [{thumbsUp: 0, wow: 0, heart: 0, rocket: 0, coffee: 0}]
    written out three times in the source. *)
Definition zeroReactions : Reactions :=
  {| thumbsUp := 0; wow := 0; heart := 0; rocket := 0; coffee := 0 |}.

(** The JavaScript values that occur as ids, tag ids and fields of request
    bodies.  Numbers are the integers that a JavaScript number holds exactly
    and writes in decimal (ids and counters of the JSON payload, below 2^53
    in absolute value); the only nested object is a reactions object. *)
Inductive JsVal :=
  | VUndef
  | VNull
  | VBool (b : bool)
  | VNum (n : Z)
  | VStr (s : string)
  | VReactions (r : Reactions).

(** JavaScript truthiness ([ToBoolean]). *)
Definition truthy (v : JsVal) : bool :=
  match v with
  | VUndef | VNull => false
  | VBool b => b
  | VNum n => negb (n =? 0)
  | VStr s => negb (String.eqb s "")
  | VReactions _ => true
  end.

(** [ToPropertyKey]: the string under which [obj[v]] reads and writes; on
    these values it is also the string a template literal renders.  The
    integers of the model are written in decimal (a JavaScript number
    switches to the exponent notation from 10^21 on, beyond the integers it
    holds exactly). *)
Definition prop_key (v : JsVal) : string :=
  match v with
  | VUndef => "undefined"
  | VNull => "null"
  | VBool true => "true"
  | VBool false => "false"
  | VNum n => pretty n
  | VStr s => s
  | VReactions _ => "[object Object]"
  end.

(** A plain object with string keys; a missing property reads [undefined]. *)
Definition js_get (o : gmap string JsVal) (k : string) : JsVal :=
  default VUndef (o !! k).

(* ===================================================================== *)
(** * Dates                                                               *)
(* ===================================================================== *)

(** A [Date] is its time value: milliseconds since the epoch, UTC. *)
Definition msPerMinute : Z := 60000.
Definition msPerDay : Z := 86400000.

(** [Date] and its methods are builtins; what follows is the proleptic
    Gregorian calendar the language prescribes for them.

    The steps of the conversion of a day number into a date.  An era is
    400 years, 146097 days, beginning on a first of March; [doe] is the day
    of the era, [yoe] the year of the era, [doy] the day of that year and
    [mp] the month counted from March = 0. *)
Definition year_of_era (doe : Z) : Z :=
  (doe - doe / 1460 + doe / 36524 - doe / 146096) / 365.

Definition day_of_year (doe yoe : Z) : Z := doe - (365 * yoe + yoe / 4 - yoe / 100).

Definition month_index (doy : Z) : Z := (5 * doy + 2) / 153.

Definition day_of_month (doy mp : Z) : Z := doy - (153 * mp + 2) / 5 + 1.

(** Date of a day number counted from 1970-01-01, in years that begin on
    the first of March: (year, month counted from March = 0, day). *)
Definition march_date (z : Z) : Z * Z * Z :=
  let z := z + 719468 in
  let era := z / 146097 in
  let doe := z - era * 146097 in
  let yoe := year_of_era doe in
  let doy := day_of_year doe yoe in
  let mp := month_index doy in
  (yoe + era * 400, mp, day_of_month doy mp).

(** Proleptic Gregorian date (year, month, day) of a day number counted
    from 1970-01-01. *)
Definition civil_from_days (z : Z) : Z * Z * Z :=
  let '(y, mp, d) := march_date z in
  let m := if mp <? 10 then mp + 3 else mp - 9 in
  (if m <=? 2 then y + 1 else y, m, d).

Definition digit (n : Z) : ascii := ascii_of_nat (48 + Z.to_nat (n mod 10)).

(** Decimal rendering of a non-negative number on exactly [w] digits. *)
Fixpoint pad (w : nat) (n : Z) : string :=
  match w with
  | O => ""
  | S w' => (pad w' (n / 10)%Z ++ String (digit n) "")%string
  end.

(** Years 0 to 9999 are written on four digits, the others with a sign on
    six. *)
Definition isoYear (y : Z) : string :=
  if (0 <=? y) && (y <=? 9999) then pad 4 y
  else ((if (y <? 0)%Z then "-" else "+") ++ pad 6 (Z.abs y))%string.

Definition isoFormat (y m d h mi s ms : Z) : string :=
  (isoYear y ++ "-" ++ pad 2 m ++ "-" ++ pad 2 d ++ "T" ++
   pad 2 h ++ ":" ++ pad 2 mi ++ ":" ++ pad 2 s ++ "." ++ pad 3 ms ++ "Z")%string.

(** [Date.prototype.toISOString]: [YYYY-MM-DDTHH:mm:ss.sssZ]. *)
Definition toISOString (t : Z) : string :=
  let '(y, m, d) := civil_from_days (t / msPerDay) in
  let r := t mod msPerDay in
  isoFormat y m d (r / 3600000) (r / 60000 mod 60) (r / 1000 mod 60) (r mod 1000).

(** The time values rendered with a four-digit year:
    0000-01-01T00:00:00.000Z to 9999-12-31T23:59:59.999Z. *)
Definition minISO : Z := -62167219200000.
Definition maxISO : Z := 253402300799999.

(** Lexicographic order on triples. *)
Definition lex3 (a b : Z * Z * Z) : Prop :=
  let '(y1, m1, d1) := a in
  let '(y2, m2, d2) := b in
  y1 < y2 ∨ (y1 = y2 ∧ (m1 < m2 ∨ (m1 = m2 ∧ d1 < d2))).

(** [sub(date, { minutes })] of the date-fns library: with only [minutes]
    given the result is the date [minutes * 60000] milliseconds earlier. *)
Definition sub_minutes (t : Z) (minutes : Z) : Z := t - minutes * msPerMinute.

(** [a.localeCompare(b)], a builtin, on date strings: negative, zero or
    positive.  On two timestamps of the format [YYYY-MM-DDTHH:mm:ss.sssZ]
    the strings differ in digits only and the comparison is the code-unit
    order, which is what is written here.  On other strings the builtin
    collates by the rules of the locale (a minus sign before a plus sign,
    for one), which are not modelled: what is proved of the order of the
    ids is proved for timestamps of that format. *)
Definition localeCompare (a b : string) : Z :=
  match String.compare a b with
  | Lt => -1
  | Eq => 0
  | Gt => 1
  end.

(** [new Date()] reads the wall clock.  A [Clock] gives the time value
    returned by the k-th evaluation of [new Date()] during one call. *)
Definition Clock := nat → Z.

(* ===================================================================== *)
(** * Posts and the entity store                                          *)
(* ===================================================================== *)

(** A record of the response payload, before the shaping step: [date] and
    [reactions] may be absent. *)
Record RawPost := mkRawPost {
  raw_id : JsVal;
  raw_date : option string;
  raw_reactions : option Reactions;
  raw_fields : gmap string JsVal
}.

(** A post after the shaping step. *)
Record Post := mkPost {
  post_id : JsVal;
  date : string;
  reactions : Reactions;
  fields : gmap string JsVal
}.

(** Entity store snapshot [{ ids, entities }]; [entities] is a plain object,
    so it is keyed by the property key of the id.  It is modelled by its own
    properties: the ids are ids of records, none of which names a property
    that objects inherit from [Object.prototype]. *)
Record Snapshot := mkSnapshot {
  ids : list JsVal;
  entities : gmap string Post
}.

(** [sortComparer: (a, b) => b.date.localeCompare(a.date)] *)
Definition sortComparer (a b : Post) : Z := localeCompare (date b) (date a).


Section array_sort.
Context {A : Type} (compareFn : A → A → Z).

(** Modelled from the spec: [Array.prototype.sort] is a builtin; the
    language requires it to be stable, and the spec asks for a stable
    comparator-driven sort.  An element goes before the first element it
    does not have to follow. *)
Fixpoint sort_insert (x : A) (l : list A) : list A :=
  match l with
  | [] => [x]
  | y :: l' => if compareFn x y <=? 0 then x :: y :: l' else y :: sort_insert x l'
  end.

(** [array.sort(compareFn)]; the first element of the array is inserted
    last, so that it comes first among the elements it ties with. *)
Fixpoint sort (l : list A) : list A :=
  match l with
  | [] => []
  | x :: l' => sort_insert x (sort l')
  end.
End array_sort.

(** The value of a string of decimal digits, read after [acc]. *)
Fixpoint digits_value (acc : N) (s : string) : option N :=
  match s with
  | "" => Some acc
  | String c s' =>
      let d := N_of_ascii c in
      if ((48 <=? d) && (d <=? 57))%N
      then digits_value (10 * acc + (d - 48))%N s'
      else None
  end.

(** A property key is an array index when it is the decimal writing of an
    integer from 0 to 2^32 - 2. *)
Definition array_index (k : string) : option N :=
  match digits_value 0 k with
  | Some n => if (n <=? 4294967294)%N && String.eqb (pretty n) k then Some n else None
  | None => None
  end.

(** The keys of an object in the order in which its properties were
    created by assigning to the keys [ks] one after the other: a key
    assigned again keeps its place. *)
Fixpoint created (ks : list string) : list string :=
  match ks with
  | [] => []
  | k :: ks' => k :: filter (λ k', k' ≠ k) (created ks')
  end.

(** The own property keys of a plain object whose properties were created
    by assigning to the keys [ks], in the order in which the language
    enumerates them: the array indices in ascending numeric order, then the
    other keys in the order of their creation. *)
Definition own_keys (ks : list string) : list string :=
  (pretty <$> sort (λ a b : N, Z.of_N a - Z.of_N b) (omap array_index (created ks)))
  ++ filter (λ k, array_index k = None) (created ks).

(** [Object.values(obj)] for an object with the own keys [ks]. *)
Definition Object_values {A : Type} (ks : list string) (obj : gmap string A) : list A :=
  omap (λ k, obj !! k) ks.

Module postsAdapter.

(** Modelled from the spec: [createEntityAdapter] is library code;
    [getInitialState()] is the empty snapshot. *)
Definition getInitialState : Snapshot := {| ids := []; entities := ∅ |}.

Definition selectId (entity : Post) : JsVal := post_id entity.

(** Modelled from the spec: [setAll(snapshot, records)] "replaces
    ids/entities wholesale; re-sorts ids via the comparator".  The adapter
    empties the store, stores every record under the property key of its id
    (a later record replaces an earlier one stored under the same key), then
    sorts [Object.values(state.entities)] with the comparator and takes the
    ids of the result. *)
Definition setAll (state : Snapshot) (newEntities : list Post) : Snapshot :=
  let entities := foldl (λ m p, <[prop_key (selectId p) := p]> m) ∅ newEntities in
  let allEntities :=
    Object_values (own_keys (map (λ p, prop_key (selectId p)) newEntities)) entities in
  {| ids := map selectId (sort sortComparer allEntities);
     entities := entities |}.

(** Modelled from the spec: the selectors made by [getSelectors], on an
    entity store snapshot. *)
Definition selectIds (state : Snapshot) : list JsVal := ids state.

Definition selectById (state : Snapshot) (i : JsVal) : option Post :=
  entities state !! prop_key i.

Definition selectAll (state : Snapshot) : list (option Post) :=
  map (selectById state) (ids state).

End postsAdapter.

(** [const initialState = postsAdapter.getInitialState()] *)
Definition initialState : Snapshot := postsAdapter.getInitialState.

(* ===================================================================== *)
(** * Tags, requests and the endpoints                                    *)
(* ===================================================================== *)

Record Tag := mkTag {
  type : string;
  tag_id : JsVal
}.

(** The sentinel id of the list tag. *)
Definition LIST : JsVal := VStr "LIST".

(** The tag index of the library is an object per tag type keyed by the tag
    id: two tags are the same tag when they have the same type and their
    ids the same property key ([{Post, 2}] and [{Post, "2"}] are one tag). *)
Definition tag_key (t : Tag) : string * string := (type t, prop_key (tag_id t)).

Record Request := mkRequest {
  url : string;
  method : string;
  body : option (gmap string JsVal)
}.

(** [!post?.date]: the date is absent or the empty string. *)
Definition date_falsy (post : RawPost) : bool :=
  negb (truthy (from_option VStr VUndef (raw_date post))).

(** The callback mapped over [responseData] by [transformResponse]; the text
    is the same in [getPosts] and in [getPostsByUserId].  [min] is the
    counter of the source, [reads] counts the evaluations of [new Date()];
    both advance only on a record whose date is falsy.  A date that is not
    falsy is some non-empty string, which is kept. *)
Fixpoint shape (clock : Clock) (min : Z) (reads : nat) (responseData : list RawPost)
    : list Post :=
  match responseData with
  | [] => []
  | post :: rest =>
      let r := match raw_reactions post with
               | None => zeroReactions
               | Some r => r
               end in
      if date_falsy post then
        {| post_id := raw_id post;
           date := toISOString (sub_minutes (clock reads) min);
           reactions := r;
           fields := raw_fields post |} :: shape clock (min + 1) (S reads) rest
      else
        {| post_id := raw_id post;
           date := default "" (raw_date post);
           reactions := r;
           fields := raw_fields post |} :: shape clock min reads rest
  end.

(** The number of records with a falsy date among the first [i]. *)
Definition missing_before (responseData : list RawPost) (i : nat) : nat :=
  length (filter (λ post, date_falsy post = true) (take i responseData)).

(** The instant given to the record that is the [k]-th (from 0) to lack a
    date: the clock as read for that record, [k + 1] minutes earlier. *)
Definition synthesized (clock : Clock) (k : nat) : Z :=
  sub_minutes (clock k) (1 + Z.of_nat k).

(** [let min = 1; const loadedPosts = responseData.map(...)] *)
Definition loadedPosts (clock : Clock) (responseData : list RawPost) : list Post :=
  shape clock 1 0 responseData.

Definition PostTag (i : JsVal) : Tag := {| type := "Post"; tag_id := i |}.

Module getPosts.

Definition query : string := "/posts".

Definition transformResponse (clock : Clock) (responseData : list RawPost) : Snapshot :=
  postsAdapter.setAll initialState (loadedPosts clock responseData).

Definition providesTags (result : Snapshot) : list Tag :=
  {| type := "Post"; tag_id := LIST |}
  :: map (λ i, {| type := "Post"; tag_id := i |}) (ids result).

End getPosts.

Module getPostsByUserId.

Definition query (i : JsVal) : string := ("/posts/?userId=" ++ prop_key i)%string.

Definition transformResponse (clock : Clock) (responseData : list RawPost) : Snapshot :=
  postsAdapter.setAll initialState (loadedPosts clock responseData).

Definition providesTags (result : Snapshot) : list Tag :=
  map (λ i, {| type := "Post"; tag_id := i |}) (ids result).

End getPostsByUserId.

Module addNewPost.

(** [Number] is the builtin coercion; [now] is the time value of
    [new Date()]. *)
Definition query (Number : JsVal → JsVal) (now : Z) (initialPost : gmap string JsVal)
    : Request :=
  {| url := "/posts";
     method := "POST";
     body := Some (<["reactions" := VReactions
                       {| thumbsUp := 0; wow := 0; heart := 0; rocket := 0; coffee := 0 |}]>
                  (<["date" := VStr (toISOString now)]>
                  (<["userId" := Number (js_get initialPost "userId")]> initialPost))) |}.

Definition invalidatesTags : list Tag := [ {| type := "Post"; tag_id := LIST |} ].

End addNewPost.

Module updatePost.

Definition query (now : Z) (initialPost : gmap string JsVal) : Request :=
  {| url := ("/posts/" ++ prop_key (js_get initialPost "id"))%string;
     method := "PUT";
     body := Some (<["date" := VStr (toISOString now)]> initialPost) |}.

Definition invalidatesTags (arg : gmap string JsVal) : list Tag :=
  [ {| type := "Post"; tag_id := js_get arg "id" |} ].

End updatePost.

Module deletePost.

Definition query (arg : gmap string JsVal) : Request :=
  let i := js_get arg "id" in
  {| url := ("/posts/" ++ prop_key i)%string;
     method := "DELETE";
     body := Some {[ "id" := i ]} |}.

Definition invalidatesTags (arg : gmap string JsVal) : list Tag :=
  [ {| type := "Post"; tag_id := js_get arg "id" |} ].

End deletePost.

(* ===================================================================== *)
(** * The query cache                                                     *)
(* ===================================================================== *)

Global Instance Reactions_eq_dec : EqDecision Reactions.
Proof. solve_decision. Defined.

Global Instance JsVal_eq_dec : EqDecision JsVal.
Proof. solve_decision. Defined.

Global Instance Tag_eq_dec : EqDecision Tag.
Proof. solve_decision. Defined.

Inductive Status := uninitialized | loading | success | error.

(** Modelled from the spec: a query cache entry (RTK Query's cache state is
    library code).  [data] is the entity store snapshot of the last
    success, [tags] the tags attached at success time. *)
Record Entry := mkEntry {
  status : Status;
  data : option Snapshot;
  tags : list Tag;
  subscriberCount : nat
}.

(** The cache: one entry per (endpoint name, serialized argument). *)
Abbreviation QueryCache := (gmap (string * string) Entry).

(** How the transport call of a mutation settles: [queryFulfilled]
    resolves or rejects. *)
Inductive Outcome := Fulfilled | Rejected.

Module api.

(** Modelled from the spec: an entry is "created uninitialized on first
    reference". *)
Definition uninitializedEntry : Entry :=
  {| status := uninitialized; data := None; tags := []; subscriberCount := 0 |}.

(** Modelled from the spec: [select(endpoint, arg)] returns the current
    entry, and the uninitialized entry when there is none. *)
Definition select (key : string * string) (cache : QueryCache) : Entry :=
  default uninitializedEntry (cache !! key).

(** Modelled from the spec: on transport success the entry takes the
    shaped result and the tag set derived from it. *)
Definition querySucceeded (key : string * string) (result : Snapshot)
    (provided : list Tag) (cache : QueryCache) : QueryCache :=
  <[key := {| status := success; data := Some result; tags := provided;
              subscriberCount := subscriberCount (select key cache) |}]> cache.

(** Modelled from the spec: [startQuery]; an existing entry gains a
    subscriber and no transport call is made, otherwise a loading entry is
    created and one transport call is issued (the boolean). *)
Definition startQuery (key : string * string) (cache : QueryCache) : QueryCache * bool :=
  match cache !! key with
  | Some e =>
      (<[key := {| status := status e; data := data e; tags := tags e;
                   subscriberCount := S (subscriberCount e) |}]> cache, false)
  | None =>
      (<[key := {| status := loading; data := None; tags := [];
                   subscriberCount := 1 |}]> cache, true)
  end.

(** Modelled from the spec: the entry's tags intersect the invalidated
    ones, tags being looked up in the index by type and id key. *)
Definition provides (invalidated : list Tag) (e : Entry) : bool :=
  bool_decide (Exists (λ t, tag_key t ∈ tag_key <$> tags e) invalidated).

(** Modelled from the spec: [TagIndex.resolve(tags)], "the union of
    query-cache keys registered under any tag in the input set".  The index
    holds back-references only, so it is read off the entries' tags. *)
Definition resolve (invalidated : list Tag) (cache : QueryCache) : gset (string * string) :=
  dom (filter (λ kv, provides invalidated kv.2 = true) cache).

(** Modelled from the spec: every resolved entry is marked stale; with
    subscribers it is re-fetched at once (back to [loading]), without it is
    dropped from the cache. *)
Definition invalidate (invalidated : list Tag) (cache : QueryCache) : QueryCache :=
  map_imap (λ _ e,
    if provides invalidated e then
      if (0 <? subscriberCount e)%nat then
        Some {| status := loading; data := data e; tags := tags e;
                subscriberCount := subscriberCount e |}
      else None
    else Some e) cache.

(** Modelled from the spec: the optimistic patch handed back by
    [updateQueryData], with the retained original ([None] when nothing was
    patched). *)
Record PatchResult := mkPatchResult {
  queryKey : string * string;
  inverseSnapshot : option Snapshot
}.

(** Modelled from the spec: the optimistic patch manager replaces the
    entry's [data] by the transformed copy, "retaining the original copy
    for reversal"; without data there is nothing to patch. *)
Definition updateQueryData (key : string * string) (updateRecipe : Snapshot → Snapshot)
    (cache : QueryCache) : PatchResult * QueryCache :=
  match cache !! key with
  | Some e =>
      match data e with
      | Some d =>
          ({| queryKey := key; inverseSnapshot := Some d |},
           <[key := {| status := status e; data := Some (updateRecipe d); tags := tags e;
                       subscriberCount := subscriberCount e |}]> cache)
      | None => ({| queryKey := key; inverseSnapshot := None |}, cache)
      end
  | None => ({| queryKey := key; inverseSnapshot := None |}, cache)
  end.

(** Modelled from the spec: [undo] restores the retained original
    snapshot. *)
Definition undo (patchResult : PatchResult) (cache : QueryCache) : QueryCache :=
  match inverseSnapshot patchResult, cache !! queryKey patchResult with
  | Some d, Some e =>
      <[queryKey patchResult := {| status := status e; data := Some d; tags := tags e;
                                    subscriberCount := subscriberCount e |}]> cache
  | _, _ => cache
  end.

(** Modelled from the spec: the mutation executor.  [onQueryStarted] runs
    around the transport call and yields the cache seen while the call is
    in flight and the cache once it settled; the declared tags are
    invalidated on success only. *)
Definition mutate (onQueryStarted : Outcome → QueryCache → QueryCache * QueryCache)
    (invalidatesTags : list Tag) (outcome : Outcome) (cache : QueryCache) : QueryCache :=
  let settled := (onQueryStarted outcome cache).2 in
  match outcome with
  | Fulfilled => invalidate invalidatesTags settled
  | Rejected => settled
  end.

(** Modelled from the spec: an endpoint that declares no [onQueryStarted]
    leaves the cache alone around the transport call. *)
Definition noQueryStarted (_ : Outcome) (cache : QueryCache) : QueryCache * QueryCache :=
  (cache, cache).

End api.

(** The cache key of [getPosts], whose argument is [undefined]. *)
Definition getPostsKey : string * string := ("getPosts", "undefined").

Definition getPostsByUserIdKey (userId : JsVal) : string * string :=
  ("getPostsByUserId", prop_key userId).

Module addReaction.

Record Arg := mkArg {
  postId : JsVal;
  arg_reactions : Reactions
}.

Definition query (arg : Arg) : Request :=
  {| url := ("posts/" ++ prop_key (postId arg))%string;
     method := "PATCH";
     body := Some {[ "reactions" := VReactions (arg_reactions arg) ]} |}.

(** [draft => { const post = draft.entities[postId];
                if (post) post.reactions = reactions }] *)
Definition updateRecipe (arg : Arg) (draft : Snapshot) : Snapshot :=
  match entities draft !! prop_key (postId arg) with
  | Some post =>
      {| ids := ids draft;
         entities := <[prop_key (postId arg) :=
                        {| post_id := post_id post; date := date post;
                           reactions := arg_reactions arg; fields := fields post |}]>
                     (entities draft) |}
  | None => draft
  end.

(** The result is the cache while [queryFulfilled] is awaited and the
    cache after it settled. *)
Definition onQueryStarted (arg : Arg) (queryFulfilled : Outcome) (cache : QueryCache)
    : QueryCache * QueryCache :=
  let '(patchResult, inflight) := api.updateQueryData getPostsKey (updateRecipe arg) cache in
  (inflight,
   match queryFulfilled with
   | Fulfilled => inflight
   | Rejected => api.undo patchResult inflight
   end).

(** No [invalidatesTags] is declared. *)
Definition invalidatesTags : list Tag := [].

End addReaction.

(* ===================================================================== *)
(** * Selectors                                                           *)
(* ===================================================================== *)

(** [extendedApiSlice.endpoints.getPosts.select()] *)
Definition selectPostsResult (state : QueryCache) : Entry := api.select getPostsKey state.

(** [postsResult => postsResult.data]; the [console.log] has no result. *)
Definition selectPostsData (state : QueryCache) : option Snapshot :=
  data (selectPostsResult state).

(** [state => selectPostsData(state) ?? initialState] *)
Definition selectPostsState (state : QueryCache) : Snapshot :=
  default initialState (selectPostsData state).

Definition selectAllPosts (state : QueryCache) : list (option Post) :=
  postsAdapter.selectAll (selectPostsState state).

Definition selectPostById (state : QueryCache) (i : JsVal) : option Post :=
  postsAdapter.selectById (selectPostsState state) i.

Definition selectPostIds (state : QueryCache) : list JsVal :=
  postsAdapter.selectIds (selectPostsState state).

(* ===================================================================== *)
(** * Sample data                                                         *)
(* ===================================================================== *)

(** A clock that ticks one millisecond between two readings, starting at
    2023-11-14T22:13:20.000Z. *)
Definition sample_clock : Clock := λ k, 1700000000000 + Z.of_nat k.

Definition sample_reactions : Reactions :=
  {| thumbsUp := 2; wow := 0; heart := 1; rocket := 0; coffee := 0 |}.

(** A payload of three records; the first and the third lack [date] and
    [reactions]. *)
Definition sample_records : list RawPost :=
  [ {| raw_id := VNum 1; raw_date := None; raw_reactions := None;
       raw_fields := {[ "title" := VStr "first" ]} |};
    {| raw_id := VNum 2; raw_date := Some "2023-11-14T22:12:30.000Z";
       raw_reactions := Some sample_reactions;
       raw_fields := {[ "title" := VStr "second" ]} |};
    {| raw_id := VNum 3; raw_date := None; raw_reactions := None;
       raw_fields := {[ "title" := VStr "third" ]} |} ].

Definition sample_snapshot : Snapshot := getPosts.transformResponse sample_clock sample_records.

(** A cache in which one subscriber holds the successful [getPosts] entry. *)
Definition sample_entry : Entry :=
  {| status := success; data := Some sample_snapshot;
     tags := getPosts.providesTags sample_snapshot; subscriberCount := 1 |}.

Definition sample_cache : QueryCache :=
  api.querySucceeded getPostsKey sample_snapshot (getPosts.providesTags sample_snapshot)
    (api.startQuery getPostsKey ∅).1.

(** The second sample record once shaped. *)
Definition sample_post : Post :=
  {| post_id := VNum 2; date := "2023-11-14T22:12:30.000Z";
     reactions := sample_reactions; fields := {[ "title" := VStr "second" ]} |}.

(** A reaction added to post 2, and one aimed at a post that is not cached. *)
Definition sample_arg : addReaction.Arg :=
  {| addReaction.postId := VNum 2;
     addReaction.arg_reactions :=
       {| thumbsUp := 3; wow := 0; heart := 1; rocket := 0; coffee := 0 |} |}.

Definition sample_unknown_arg : addReaction.Arg :=
  {| addReaction.postId := VNum 99;
     addReaction.arg_reactions :=
       {| thumbsUp := 1; wow := 0; heart := 0; rocket := 0; coffee := 0 |} |}.

(** Two records without a date, and a clock that is read two minutes later
    the second time than the first. *)
Definition sample_undated : list RawPost :=
  [ {| raw_id := VNum 1; raw_date := None; raw_reactions := None; raw_fields := ∅ |};
    {| raw_id := VNum 2; raw_date := None; raw_reactions := None; raw_fields := ∅ |} ].

Definition sample_late_clock : Clock := λ k, 1700000000000 + Z.of_nat k * 120000.

(** The callback assigns to the records of the response themselves
    ([post.date = ...], [post.reactions = ...]) and returns them: after the
    call the response holds the shaped records.  This is a shaped post read
    as a record of a response. *)
Definition as_response (post : Post) : RawPost :=
  {| raw_id := post_id post; raw_date := Some (date post);
     raw_reactions := Some (reactions post); raw_fields := fields post |}.

(** Two lists of tags have a tag in common, as the tag index sees it: what
    makes a mutation invalidate a query. *)
Definition tags_meet (invalidated provided : list Tag) : Prop :=
  ∃ t t', t ∈ invalidated ∧ t' ∈ provided ∧ tag_key t = tag_key t'.



(** A reaction added to post 1 of the sample. *)
Definition sample_arg_first : addReaction.Arg :=
  {| addReaction.postId := VNum 1;
     addReaction.arg_reactions :=
       {| thumbsUp := 0; wow := 4; heart := 0; rocket := 0; coffee := 1 |} |}.

(** A clock whose reading does not change during the call. *)
Definition sample_clock_frozen : Clock := λ _, 1700000000000.

(** A clock that agrees with [sample_clock] on its first two readings. *)
Definition sample_clock_stopped : Clock := λ k, if (k <? 2)%nat then sample_clock k else 0.

(** The reaction of [sample_arg] with the post id given as a string. *)
Definition sample_arg_by_string : addReaction.Arg :=
  {| addReaction.postId := VStr "2";
     addReaction.arg_reactions := sample_reactions |}.

Example toISOString_epoch : toISOString 0 = "1970-01-01T00:00:00.000Z".
Proof. reflexivity. Qed.

Example toISOString_2023 : toISOString 1700000000123 = "2023-11-14T22:13:20.123Z".
Proof. vm_compute. reflexivity. Qed.

Example toISOString_leap : toISOString 1709164800000 = "2024-02-29T00:00:00.000Z".
Proof. vm_compute. reflexivity. Qed.

Example toISOString_before_epoch : toISOString (-1) = "1969-12-31T23:59:59.999Z".
Proof. vm_compute. reflexivity. Qed.

Example toISOString_bounds :
  toISOString minISO = "0000-01-01T00:00:00.000Z" ∧
  toISOString maxISO = "9999-12-31T23:59:59.999Z" ∧
  toISOString (minISO - 1) = "-000001-12-31T23:59:59.999Z" ∧
  toISOString (maxISO + 1) = "+010000-01-01T00:00:00.000Z".
Proof. vm_compute. repeat split. Qed.

Arguments api.provides : simpl never.

(** The definitions use [map] as the source does; the list lemmas are
    stated for [<$>]. *)
Ltac fold_fmap :=
  repeat match goal with
  | |- context [map ?f ?l] => change (map f l) with (f <$> l)
  | H : context [map ?f ?l] |- _ => change (map f l) with (f <$> l) in H
  end.

(* ===================================================================== *)
(** * The ISO rendering preserves the order of instants                   *)
(* ===================================================================== *)

Lemma string_compare_refl (a : string) : String.compare a a = Eq.
Proof.
  induction a as [|x a IH]; simpl; [reflexivity|].
  unfold Ascii.compare. rewrite N.compare_refl. exact IH.
Qed.

Lemma string_compare_trans (a b c : string) :
  String.compare a b ≠ Gt → String.compare b c ≠ Gt → String.compare a c ≠ Gt.
Proof.
  revert b c. induction a as [|x a IH]; intros [|y b] [|z c]; simpl; try congruence.
  unfold Ascii.compare.
  destruct (N.compare_spec (N_of_ascii x) (N_of_ascii y)) as [Exy|Lxy|Gxy];
    destruct (N.compare_spec (N_of_ascii y) (N_of_ascii z)) as [Eyz|Lyz|Gyz];
    destruct (N.compare_spec (N_of_ascii x) (N_of_ascii z)) as [Exz|Lxz|Gxz];
    try congruence; try lia; eauto.
Qed.

Lemma string_app_cons (c : ascii) (s s' : string) :
  (String c s ++ s')%string = String c (s ++ s')%string.
Proof. reflexivity. Qed.

Lemma string_app_nil (s : string) : ("" ++ s)%string = s.
Proof. reflexivity. Qed.

Lemma string_app_assoc (a b c : string) : ((a ++ b) ++ c = a ++ (b ++ c))%string.
Proof.
  induction a as [|x a IH]; [reflexivity|].
  rewrite !string_app_cons, IH. reflexivity.
Qed.

Lemma string_compare_String (c c' : ascii) (s s' : string) :
  String.compare (String c s) (String c' s') =
  match Ascii.compare c c' with
  | Eq => String.compare s s'
  | Lt => Lt
  | Gt => Gt
  end.
Proof. reflexivity. Qed.

Lemma string_compare_cons (c : ascii) (s s' : string) :
  String.compare (String c s) (String c s') = String.compare s s'.
Proof.
  rewrite string_compare_String. unfold Ascii.compare. rewrite N.compare_refl. reflexivity.
Qed.

Lemma digit_compare (a b : Z) :
  Ascii.compare (digit a) (digit b) = (a mod 10 ?= b mod 10).
Proof.
  unfold Ascii.compare, digit, ascii_of_nat.
  pose proof (Z.mod_pos_bound a 10 eq_refl) as Ha.
  pose proof (Z.mod_pos_bound b 10 eq_refl) as Hb.
  rewrite !N_ascii_embedding by lia.
  rewrite <- N2Z.inj_compare, !nat_N_Z, !Nat2Z.inj_add, !Z2Nat.id by lia.
  simpl Z.of_nat. apply Z.add_compare_mono_l.
Qed.

(** Two numbers on the same number of digits compare as their renderings,
    whatever follows. *)
Lemma pad_compare (w : nat) (a b : Z) (s s' : string) :
  0 ≤ a < 10 ^ Z.of_nat w → 0 ≤ b < 10 ^ Z.of_nat w →
  String.compare (pad w a ++ s) (pad w b ++ s') =
  match a ?= b with
  | Eq => String.compare s s'
  | Lt => Lt
  | Gt => Gt
  end.
Proof.
  revert a b s s'. induction w as [|w IH]; intros a b s s' Ha Hb.
  - change (10 ^ Z.of_nat 0) with 1 in Ha, Hb.
    assert (a = 0) as -> by lia. assert (b = 0) as -> by lia. reflexivity.
  - rewrite Nat2Z.inj_succ, Z.pow_succ_r in Ha, Hb by lia.
    simpl pad. rewrite !string_app_assoc, !string_app_cons, !string_app_nil.
    rewrite IH by (split; [apply Z.div_pos; lia|apply Z.div_lt_upper_bound; lia]).
    rewrite string_compare_String, digit_compare.
    destruct (Z.compare_spec a b) as [->|Hlt|Hgt].
    + rewrite !Z.compare_refl. reflexivity.
    + destruct (Z.compare_spec (a / 10) (b / 10)) as [E|L|G];
        [|reflexivity|exfalso; Z.div_mod_to_equations; lia].
      destruct (Z.compare_spec (a mod 10) (b mod 10)) as [E'|L'|G'];
        [|reflexivity|]; exfalso; Z.div_mod_to_equations; lia.
    + destruct (Z.compare_spec (a / 10) (b / 10)) as [E|L|G];
        [|exfalso; Z.div_mod_to_equations; lia|reflexivity].
      destruct (Z.compare_spec (a mod 10) (b mod 10)) as [E'|L'|G'];
        [| |reflexivity]; exfalso; Z.div_mod_to_equations; lia.
Qed.

(** The renderings of two dates with four-digit years compare as the dates
    do, field by field. *)
Lemma isoFormat_lt (y1 m1 d1 h1 mi1 s1 ms1 y2 m2 d2 h2 mi2 s2 ms2 : Z) :
  0 ≤ y1 ≤ 9999 → 0 ≤ y2 ≤ 9999 →
  0 ≤ m1 < 100 → 0 ≤ m2 < 100 → 0 ≤ d1 < 100 → 0 ≤ d2 < 100 →
  0 ≤ h1 < 100 → 0 ≤ h2 < 100 → 0 ≤ mi1 < 100 → 0 ≤ mi2 < 100 →
  0 ≤ s1 < 100 → 0 ≤ s2 < 100 → 0 ≤ ms1 < 1000 → 0 ≤ ms2 < 1000 →
  lex3 (y1, m1, d1) (y2, m2, d2) ∨
    (y1 = y2 ∧ m1 = m2 ∧ d1 = d2 ∧
     (lex3 (h1, mi1, s1) (h2, mi2, s2) ∨ (h1 = h2 ∧ mi1 = mi2 ∧ s1 = s2 ∧ ms1 < ms2))) →
  String.compare (isoFormat y1 m1 d1 h1 mi1 s1 ms1) (isoFormat y2 m2 d2 h2 mi2 s2 ms2) = Lt.
Proof.
  intros Hy1 Hy2 Hm1 Hm2 Hd1 Hd2 Hh1 Hh2 Hmi1 Hmi2 Hs1 Hs2 Hms1 Hms2 Hlex.
  unfold isoFormat, isoYear.
  assert ((0 <=? y1) && (y1 <=? 9999) = true) as -> by lia.
  assert ((0 <=? y2) && (y2 <=? 9999) = true) as -> by lia.
  rewrite !string_app_cons, !string_app_nil.
  rewrite pad_compare, string_compare_cons by (change (10 ^ Z.of_nat 4) with 10000; lia).
  do 5 (rewrite pad_compare, string_compare_cons by (change (10 ^ Z.of_nat 2) with 100; lia)).
  rewrite pad_compare by (change (10 ^ Z.of_nat 3) with 1000; lia).
  unfold lex3 in Hlex.
  destruct (Z.compare_spec y1 y2); [|reflexivity|exfalso; lia].
  destruct (Z.compare_spec m1 m2); [|reflexivity|exfalso; lia].
  destruct (Z.compare_spec d1 d2); [|reflexivity|exfalso; lia].
  destruct (Z.compare_spec h1 h2); [|reflexivity|exfalso; lia].
  destruct (Z.compare_spec mi1 mi2); [|reflexivity|exfalso; lia].
  destruct (Z.compare_spec s1 s2); [|reflexivity|exfalso; lia].
  destruct (Z.compare_spec ms1 ms2); [|reflexivity|]; exfalso; lia.
Qed.

(** ** Days to dates *)

Lemma year_of_era_range (doe : Z) :
  0 ≤ doe < 146097 → 0 ≤ year_of_era doe ≤ 399.
Proof. intros H. unfold year_of_era. Z.div_mod_to_equations. lia. Qed.

Lemma day_of_year_range (doe : Z) :
  0 ≤ doe < 146097 → 0 ≤ day_of_year doe (year_of_era doe) ≤ 365.
Proof. intros H. unfold day_of_year, year_of_era. Z.div_mod_to_equations. lia. Qed.

Lemma year_of_era_mono (a b : Z) :
  0 ≤ a → a ≤ b → b < 146097 → year_of_era a ≤ year_of_era b.
Proof. intros Ha Hab Hb. unfold year_of_era. Z.div_mod_to_equations. lia. Qed.

Lemma month_index_range (doy : Z) :
  0 ≤ doy ≤ 365 →
  0 ≤ month_index doy ≤ 11 ∧ 1 ≤ day_of_month doy (month_index doy) ≤ 31.
Proof. intros H. unfold day_of_month, month_index. Z.div_mod_to_equations. lia. Qed.

Lemma month_index_mono (a b : Z) :
  0 ≤ a → a < b → b ≤ 365 →
  month_index a < month_index b ∨
  (month_index a = month_index b ∧
   day_of_month a (month_index a) < day_of_month b (month_index b)).
Proof. intros Ha Hab Hb. unfold day_of_month, month_index. Z.div_mod_to_equations. lia. Qed.

Lemma era_split (z : Z) : 0 ≤ z - z / 146097 * 146097 < 146097.
Proof. Z.div_mod_to_equations. lia. Qed.

Lemma march_date_range (z : Z) :
  0 ≤ (march_date z).1.2 ≤ 11 ∧ 1 ≤ (march_date z).2 ≤ 31.
Proof.
  unfold march_date. simpl.
  apply month_index_range, day_of_year_range, era_split.
Qed.

Lemma march_date_mono (z1 z2 : Z) : z1 < z2 → lex3 (march_date z1) (march_date z2).
Proof.
  intros H. unfold march_date, lex3.
  set (era1 := (z1 + 719468) / 146097). set (era2 := (z2 + 719468) / 146097).
  set (doe1 := z1 + 719468 - era1 * 146097). set (doe2 := z2 + 719468 - era2 * 146097).
  pose proof (era_split (z1 + 719468)) as Hd1. pose proof (era_split (z2 + 719468)) as Hd2.
  fold era1 doe1 in Hd1. fold era2 doe2 in Hd2.
  pose proof (year_of_era_range doe1 Hd1) as Hy1.
  pose proof (year_of_era_range doe2 Hd2) as Hy2.
  assert (Hera : era1 < era2 ∨ (era1 = era2 ∧ doe1 < doe2)) by (subst doe1 doe2; lia).
  destruct Hera as [Hera|[Hera Hdoe]]; [left; lia|].
  pose proof (year_of_era_mono doe1 doe2 (proj1 Hd1) (Z.lt_le_incl _ _ Hdoe) (proj2 Hd2))
    as Hmono.
  destruct (Z.eq_dec (year_of_era doe1) (year_of_era doe2)) as [Hyoe|Hyoe]; [|left; lia].
  right. split; [lia|].
  pose proof (day_of_year_range doe1 Hd1) as Hdoy1.
  pose proof (day_of_year_range doe2 Hd2) as Hdoy2.
  apply month_index_mono; [lia| |lia].
  rewrite Hyoe. unfold day_of_year. lia.
Qed.

Lemma civil_from_days_range (z : Z) :
  1 ≤ (civil_from_days z).1.2 ≤ 12 ∧ 1 ≤ (civil_from_days z).2 ≤ 31.
Proof.
  pose proof (march_date_range z) as H. unfold civil_from_days.
  destruct (march_date z) as [[y mp] d]. simpl in *.
  destruct (mp <? 10) eqn:E; lia.
Qed.

Lemma civil_from_days_mono (z1 z2 : Z) :
  z1 < z2 → lex3 (civil_from_days z1) (civil_from_days z2).
Proof.
  intros H. pose proof (march_date_mono z1 z2 H) as Hlex.
  pose proof (march_date_range z1) as H1. pose proof (march_date_range z2) as H2.
  unfold civil_from_days.
  destruct (march_date z1) as [[y1 mp1] d1], (march_date z2) as [[y2 mp2] d2].
  unfold lex3 in *. simpl in *.
  destruct (mp1 <? 10) eqn:E1, (mp2 <? 10) eqn:E2;
    repeat match goal with
    | |- context [?a <=? 2] => destruct (Z.leb_spec a 2)
    end; lia.
Qed.

(** The days of the years 0 to 9999. *)
Lemma civil_from_days_year (z : Z) :
  (-719528 ≤ z ≤ 2932896 → 0 ≤ (civil_from_days z).1.1 ≤ 9999) ∧
  (z < -719528 → (civil_from_days z).1.1 < 0) ∧
  (2932896 < z → 9999 < (civil_from_days z).1.1).
Proof.
  assert (Hle : ∀ a b, a ≤ b →
            (civil_from_days a).1.1 ≤ (civil_from_days b).1.1).
  { intros a b Hab. destruct (Z.eq_dec a b) as [->|Hne]; [lia|].
    assert (a < b) as Hlt by lia. apply civil_from_days_mono in Hlt.
    destruct (civil_from_days a) as [[ya ma] da], (civil_from_days b) as [[yb mb] db].
    unfold lex3 in Hlt. simpl. lia. }
  split; [|split].
  - intros [H1 H2]. pose proof (Hle _ _ H1) as L. pose proof (Hle _ _ H2) as U.
    change ((civil_from_days (-719528)).1.1) with 0 in L.
    change ((civil_from_days 2932896).1.1) with 9999 in U. lia.
  - intros H. assert (z ≤ -719529) as H' by lia. apply Hle in H'.
    change ((civil_from_days (-719529)).1.1) with (-1) in H'. lia.
  - intros H. assert (2932897 ≤ z) as H' by lia. apply Hle in H'.
    change ((civil_from_days 2932897).1.1) with 10000 in H'. lia.
Qed.

(** ** Instants to strings *)

Lemma time_fields_range (r : Z) :
  0 ≤ r < 86400000 →
  0 ≤ r / 3600000 < 100 ∧ 0 ≤ r / 60000 mod 60 < 100 ∧
  0 ≤ r / 1000 mod 60 < 100 ∧ 0 ≤ r mod 1000 < 1000.
Proof. intros H. Z.div_mod_to_equations. lia. Qed.

Lemma time_fields_lt (r1 r2 : Z) :
  0 ≤ r1 → r1 < r2 → r2 < 86400000 →
  lex3 (r1 / 3600000, r1 / 60000 mod 60, r1 / 1000 mod 60)
       (r2 / 3600000, r2 / 60000 mod 60, r2 / 1000 mod 60) ∨
  (r1 / 3600000 = r2 / 3600000 ∧ r1 / 60000 mod 60 = r2 / 60000 mod 60 ∧
   r1 / 1000 mod 60 = r2 / 1000 mod 60 ∧ r1 mod 1000 < r2 mod 1000).
Proof. intros H1 H12 H2. unfold lex3. Z.div_mod_to_equations. lia. Qed.

Lemma iso_days (t : Z) :
  (minISO ≤ t ≤ maxISO ↔ -719528 ≤ t / msPerDay ≤ 2932896) ∧
  0 ≤ t mod msPerDay < 86400000.
Proof. unfold minISO, maxISO, msPerDay. Z.div_mod_to_equations. lia. Qed.

(** On the instants with a four-digit year, a later instant has the greater
    rendering. *)
Lemma toISOString_lt (t1 t2 : Z) :
  minISO ≤ t1 → t1 < t2 → t2 ≤ maxISO →
  String.compare (toISOString t1) (toISOString t2) = Lt.
Proof.
  intros Hmin Hlt Hmax. unfold toISOString.
  destruct (iso_days t1) as [Hz1 Hr1], (iso_days t2) as [Hz2 Hr2].
  assert (Hin1 : -719528 ≤ t1 / msPerDay ≤ 2932896) by (apply Hz1; lia).
  assert (Hin2 : -719528 ≤ t2 / msPerDay ≤ 2932896) by (apply Hz2; lia).
  assert (Hdays : t1 / msPerDay < t2 / msPerDay ∨
                  (t1 / msPerDay = t2 / msPerDay ∧ t1 mod msPerDay < t2 mod msPerDay)).
  { unfold msPerDay. Z.div_mod_to_equations. lia. }
  pose proof (proj1 (civil_from_days_year _) Hin1) as Hy1.
  pose proof (proj1 (civil_from_days_year _) Hin2) as Hy2.
  pose proof (civil_from_days_range (t1 / msPerDay)) as Hmd1.
  pose proof (civil_from_days_range (t2 / msPerDay)) as Hmd2.
  pose proof (time_fields_range _ Hr1) as Hf1.
  pose proof (time_fields_range _ Hr2) as Hf2.
  assert (Hlex : lex3 (civil_from_days (t1 / msPerDay)) (civil_from_days (t2 / msPerDay)) ∨
                 (civil_from_days (t1 / msPerDay) = civil_from_days (t2 / msPerDay) ∧
                  t1 mod msPerDay < t2 mod msPerDay)).
  { destruct Hdays as [Hd|[Hd Hr]]; [left; apply civil_from_days_mono; exact Hd|].
    right. rewrite Hd. auto. }
  destruct (civil_from_days (t1 / msPerDay)) as [[y1 m1] d1].
  destruct (civil_from_days (t2 / msPerDay)) as [[y2 m2] d2].
  simpl in Hy1, Hy2, Hmd1, Hmd2.
  apply isoFormat_lt; try lia.
  destruct Hlex as [Hlex|[Heq Hr]]; [left; exact Hlex|].
  right. injection Heq as -> -> ->. repeat (split; [reflexivity|]).
  apply time_fields_lt; lia.
Qed.

Lemma toISOString_inj (t1 t2 : Z) :
  minISO ≤ t1 ≤ maxISO → minISO ≤ t2 ≤ maxISO →
  toISOString t1 = toISOString t2 → t1 = t2.
Proof.
  intros H1 H2 E.
  destruct (Z.lt_trichotomy t1 t2) as [Hlt|[Heq|Hgt]]; [|exact Heq|].
  - pose proof (toISOString_lt t1 t2 (proj1 H1) Hlt (proj2 H2)) as C.
    rewrite E, string_compare_refl in C. discriminate C.
  - pose proof (toISOString_lt t2 t1 (proj1 H2) Hgt (proj2 H1)) as C.
    rewrite E, string_compare_refl in C. discriminate C.
Qed.

Lemma digit_code (n : Z) : (48 ≤ N_of_ascii (digit n) ≤ 57)%N.
Proof.
  unfold digit, ascii_of_nat.
  pose proof (Z.mod_pos_bound n 10 eq_refl) as H.
  rewrite N_ascii_embedding by lia. lia.
Qed.

Lemma pad_head (w : nat) (n : Z) (s : string) :
  ∃ k s', (pad (S w) n ++ s)%string = String (digit k) s'.
Proof.
  revert n s. induction w as [|w IH]; intros n s.
  - exists n, s. reflexivity.
  - change (pad (S (S w)) n) with (pad (S w) (n / 10) ++ String (digit n) "")%string.
    rewrite string_app_assoc. apply IH.
Qed.

(** A rendering that begins with a digit is that of an instant with a
    four-digit year. *)
Lemma toISOString_head (t : Z) :
  (minISO ≤ t ≤ maxISO ∧ ∃ k s, toISOString t = String (digit k) s) ∨
  ((t < minISO ∨ maxISO < t) ∧
   ∃ s, toISOString t = String "-" s ∨ toISOString t = String "+" s).
Proof.
  destruct (iso_days t) as [Hz _].
  pose proof (civil_from_days_year (t / msPerDay)) as (Hin & Hlo & Hhi).
  unfold toISOString.
  destruct (civil_from_days (t / msPerDay)) as [[y m] d]. simpl in Hin, Hlo, Hhi.
  unfold isoFormat, isoYear.
  destruct (Z_le_dec minISO t) as [Hmin|Hmin]; [destruct (Z_le_dec t maxISO) as [Hmax|Hmax]|].
  - left. split; [lia|].
    assert (0 ≤ y ≤ 9999) as Hy by (apply Hin, Hz; lia).
    assert ((0 <=? y) && (y <=? 9999) = true) as -> by lia.
    apply pad_head.
  - right. split; [lia|].
    assert (9999 < y) as Hy.
    { apply Hhi. unfold maxISO, msPerDay in *. Z.div_mod_to_equations. lia. }
    assert ((0 <=? y) && (y <=? 9999) = false) as -> by lia.
    assert ((y <? 0) = false) as -> by lia.
    eexists. right. rewrite !string_app_cons, string_app_nil. reflexivity.
  - right. split; [lia|].
    assert (y < 0) as Hy.
    { apply Hlo. unfold minISO, msPerDay in *. Z.div_mod_to_equations. lia. }
    assert ((0 <=? y) && (y <=? 9999) = false) as -> by lia.
    assert ((y <? 0) = true) as -> by lia.
    eexists. left. rewrite !string_app_cons, string_app_nil. reflexivity.
Qed.

(** The rendering of an instant with a four-digit year is the rendering of
    no other instant. *)
Lemma toISOString_inj_at (t t0 : Z) :
  minISO ≤ t0 ≤ maxISO → toISOString t = toISOString t0 → t = t0.
Proof.
  intros H0 E.
  destruct (toISOString_head t0) as [(_ & k & s0 & E0)|[Hout _]]; [|lia].
  destruct (toISOString_head t) as [[Hin _]|(_ & s & Es)].
  - exact (toISOString_inj t t0 Hin H0 E).
  - exfalso. pose proof (digit_code k) as Hk. rewrite E0 in E.
    destruct Es as [Es|Es]; rewrite Es in E; injection E as Ec _;
      rewrite <- Ec in Hk; vm_compute in Hk; destruct Hk as [Hk _]; apply Hk; reflexivity.
Qed.

(* ===================================================================== *)
(** * The stable sort                                                     *)
(* ===================================================================== *)





Section sort_facts.
Context {A : Type} (compareFn : A → A → Z).

Lemma sort_insert_split (x : A) (l : list A) :
  ∃ l1 l2, l = l1 ++ l2 ∧ sort_insert compareFn x l = l1 ++ x :: l2 ∧
           Forall (λ y, 0 < compareFn x y) l1 ∧
           match l2 with [] => True | y :: _ => compareFn x y ≤ 0 end.
Proof.
  induction l as [|y l IH]; simpl.
  - exists [], []. repeat split. constructor.
  - destruct (compareFn x y <=? 0) eqn:E.
    + exists [], (y :: l). repeat split; [constructor|]. apply Z.leb_le. exact E.
    + destruct IH as (l1 & l2 & -> & -> & Hall & Hhd).
      exists (y :: l1), l2. repeat split; [|exact Hhd].
      constructor; [|exact Hall]. apply Z.leb_gt in E. lia.
Qed.

Lemma sort_insert_perm (x : A) (l : list A) : sort_insert compareFn x l ≡ₚ x :: l.
Proof.
  destruct (sort_insert_split x l) as (l1 & l2 & -> & -> & _).
  symmetry. apply Permutation_middle.
Qed.

Lemma sort_perm (l : list A) : sort compareFn l ≡ₚ l.
Proof.
  induction l as [|x l IH]; simpl; [reflexivity|].
  rewrite sort_insert_perm, IH. reflexivity.
Qed.


(** The comparator is consistent: the relation "may go first" is total
    and transitive. *)
Hypothesis compareFn_antisym : ∀ a b, 0 < compareFn a b → compareFn b a < 0.
Hypothesis compareFn_trans :
  ∀ a b c, compareFn a b ≤ 0 → compareFn b c ≤ 0 → compareFn a c ≤ 0.

Lemma sort_sorted (l : list A) :
  StronglySorted (λ a b, compareFn a b ≤ 0) (sort compareFn l).
Proof.
  induction l as [|x l IH]; simpl; [constructor|].
  destruct (sort_insert_split x (sort compareFn l)) as (l1 & l2 & E & -> & Hall & Hhd).
  rewrite E in IH. apply StronglySorted_app in IH as (Hcross & H1 & H2).
  apply StronglySorted_app. split; [|split; [exact H1|]].
  - intros a b Ha Hb. apply elem_of_cons in Hb as [->|Hb]; [|apply Hcross; assumption].
    rewrite Forall_forall in Hall. specialize (Hall a Ha).
    apply compareFn_antisym in Hall. lia.
  - apply StronglySorted_cons. split; [|exact H2].
    destruct l2 as [|y l2]; [constructor|].
    apply StronglySorted_cons in H2 as [Hy _].
    constructor; [exact Hhd|].
    rewrite Forall_forall in Hy |- *. intros z Hz.
    apply (compareFn_trans x y z Hhd). apply Hy. exact Hz.
Qed.

End sort_facts.

(* ===================================================================== *)
(** * The comparator                                                      *)
(* ===================================================================== *)

Lemma localeCompare_le (a b : string) :
  localeCompare a b ≤ 0 ↔ String.compare a b ≠ Gt.
Proof.
  unfold localeCompare. destruct (String.compare a b); split; intros H; try lia; congruence.
Qed.


Lemma sortComparer_antisym (a b : Post) : 0 < sortComparer a b → sortComparer b a < 0.
Proof.
  unfold sortComparer, localeCompare. rewrite (String.compare_antisym (date a) (date b)).
  destruct (String.compare (date b) (date a)); simpl; lia.
Qed.

Lemma sortComparer_trans (a b c : Post) :
  sortComparer a b ≤ 0 → sortComparer b c ≤ 0 → sortComparer a c ≤ 0.
Proof.
  unfold sortComparer. rewrite !localeCompare_le. intros Hab Hbc.
  exact (string_compare_trans _ _ _ Hbc Hab).
Qed.

(* ===================================================================== *)
(** * The shaping step                                                    *)
(* ===================================================================== *)

Lemma shape_ids (clock : Clock) (min : Z) (reads : nat) (responseData : list RawPost) :
  post_id <$> shape clock min reads responseData = raw_id <$> responseData.
Proof.
  revert min reads. induction responseData as [|post rest IH]; intros min reads; simpl.
  - reflexivity.
  - destruct (date_falsy post); simpl; rewrite IH; reflexivity.
Qed.

Lemma missing_before_0 (responseData : list RawPost) : missing_before responseData 0 = 0%nat.
Proof. unfold missing_before. rewrite take_0. reflexivity. Qed.

Lemma missing_before_S (post : RawPost) (rest : list RawPost) (i : nat) :
  missing_before (post :: rest) (S i) =
  ((if date_falsy post then 1 else 0) + missing_before rest i)%nat.
Proof.
  unfold missing_before. simpl. rewrite filter_cons.
  destruct (decide (date_falsy post = true)) as [E|E].
  - rewrite E. reflexivity.
  - apply not_true_is_false in E. rewrite E. reflexivity.
Qed.

Lemma shape_lookup (clock : Clock) (min : Z) (reads : nat)
    (responseData : list RawPost) (i : nat) (r : RawPost) :
  responseData !! i = Some r →
  shape clock min reads responseData !! i =
  Some {| post_id := raw_id r;
          date := if date_falsy r
                  then toISOString (sub_minutes
                         (clock (reads + missing_before responseData i)%nat)
                         (min + Z.of_nat (missing_before responseData i)))
                  else default "" (raw_date r);
          reactions := match raw_reactions r with
                       | None => zeroReactions
                       | Some x => x
                       end;
          fields := raw_fields r |}.
Proof.
  revert min reads i. induction responseData as [|post rest IH]; intros min reads i Hi.
  - destruct i; discriminate Hi.
  - destruct i as [|i].
    + injection Hi as ->. rewrite missing_before_0. simpl.
      rewrite Nat.add_0_r, Z.add_0_r. destruct (date_falsy r); reflexivity.
    + simpl in Hi. rewrite missing_before_S. simpl.
      destruct (date_falsy post); simpl; rewrite (IH _ _ _ Hi).
      * replace (S reads + missing_before rest i)%nat
          with (reads + S (missing_before rest i))%nat by lia.
        replace (min + 1 + Z.of_nat (missing_before rest i))
          with (min + Z.of_nat (S (missing_before rest i))) by lia.
        reflexivity.
      * reflexivity.
Qed.

Lemma missing_before_lt (responseData : list RawPost) (i j : nat) (r : RawPost) :
  (i < j)%nat → responseData !! i = Some r → date_falsy r = true →
  (missing_before responseData i < missing_before responseData j)%nat.
Proof.
  revert i j. induction responseData as [|post rest IH]; intros i j Hij Hi Hr.
  - destruct i; discriminate Hi.
  - destruct j as [|j]; [lia|]. destruct i as [|i].
    + injection Hi as ->. rewrite missing_before_0, missing_before_S, Hr. lia.
    + simpl in Hi. rewrite !missing_before_S.
      assert (missing_before rest i < missing_before rest j)%nat
        by (apply (IH i j); [lia|exact Hi|exact Hr]).
      lia.
Qed.

Lemma clock_drift (clock : Clock) (k k' : nat) :
  (∀ n, clock (S n) - clock n < msPerMinute) → (k < k')%nat →
  clock k' - clock k < Z.of_nat (k' - k) * msPerMinute.
Proof.
  intros Hstep Hk. induction k' as [|k' IH]; [lia|].
  destruct (decide (k = k')) as [->|Hne].
  - replace (S k' - k')%nat with 1%nat by lia. specialize (Hstep k'). lia.
  - assert (k < k')%nat as Hlt by lia. specialize (IH Hlt). specialize (Hstep k').
    replace (Z.of_nat (S k' - k)) with (Z.of_nat (k' - k) + 1) by lia. lia.
Qed.

Lemma synthesized_decreasing (clock : Clock) (k k' : nat) :
  (∀ n, clock (S n) - clock n < msPerMinute) → (k < k')%nat →
  synthesized clock k' < synthesized clock k.
Proof.
  intros Hstep Hk. pose proof (clock_drift clock k k' Hstep Hk) as H.
  unfold synthesized, sub_minutes.
  replace (Z.of_nat (k' - k)) with (Z.of_nat k' - Z.of_nat k) in H by lia.
  unfold msPerMinute in *. lia.
Qed.

Lemma loadedPosts_length (clock : Clock) (responseData : list RawPost) :
  length (loadedPosts clock responseData) = length responseData.
Proof.
  rewrite <- (length_fmap post_id), <- (length_fmap raw_id responseData).
  f_equal. apply shape_ids.
Qed.

(* ===================================================================== *)
(** * Backfill of missing fields                                          *)
(* ===================================================================== *)

Lemma loadedPosts_date_falsy (clock : Clock) (responseData : list RawPost)
    (i : nat) (r : RawPost) (p : Post) :
  responseData !! i = Some r → date_falsy r = true →
  loadedPosts clock responseData !! i = Some p →
  date p = toISOString (synthesized clock (missing_before responseData i)).
Proof.
  intros Hi Hr Hp. unfold loadedPosts in Hp.
  rewrite (shape_lookup clock 1 0 responseData i r Hi) in Hp.
  injection Hp as <-. simpl. rewrite Hr. reflexivity.
Qed.

(** C3, as stated, fails: the clock is read anew for every record without a
    date.  With a clock that moves on by one millisecond between the two
    readings the second synthesized date is 59.999 seconds before the first,
    not one minute; and when the second reading is two minutes after the
    first, the second synthesized date is later than the first. *)
Lemma backfill_fixed_offset_counterexample :
  ¬ (∀ (clock : Clock) (responseData : list RawPost) (i j : nat) (ri rj : RawPost)
       (p q : Post),
       responseData !! i = Some ri → date_falsy ri = true →
       responseData !! j = Some rj → date_falsy rj = true →
       missing_before responseData j = S (missing_before responseData i) →
       loadedPosts clock responseData !! i = Some p →
       loadedPosts clock responseData !! j = Some q →
       ∃ t, date p = toISOString t ∧ date q = toISOString (t - msPerMinute)) ∧
  ¬ (∀ (clock : Clock) (responseData : list RawPost) (i j : nat) (ri rj : RawPost)
       (p q : Post),
       (i < j)%nat →
       responseData !! i = Some ri → date_falsy ri = true →
       responseData !! j = Some rj → date_falsy rj = true →
       loadedPosts clock responseData !! i = Some p →
       loadedPosts clock responseData !! j = Some q →
       localeCompare (date q) (date p) < 0) ∧
  date <$> loadedPosts sample_clock sample_undated =
    ["2023-11-14T22:12:20.000Z"; "2023-11-14T22:11:20.001Z"] ∧
  date <$> loadedPosts sample_late_clock sample_undated =
    ["2023-11-14T22:12:20.000Z"; "2023-11-14T22:13:20.000Z"].
Proof.
  split; [|split; [|split; vm_compute; reflexivity]].
  - intros H.
    destruct (H sample_clock sample_undated 0%nat 1%nat _ _ _ _
                eq_refl eq_refl eq_refl eq_refl eq_refl eq_refl eq_refl) as (t & Hp & Hq).
    assert (Ht : t = 1699999940000).
    { apply toISOString_inj_at; [unfold minISO, maxISO; lia|].
      rewrite <- Hp. vm_compute. reflexivity. }
    subst t. vm_compute in Hq. discriminate Hq.
  - intros H.
    specialize (H sample_late_clock sample_undated 0%nat 1%nat _ _ _ _
                  (Nat.lt_0_succ 0) eq_refl eq_refl eq_refl eq_refl eq_refl eq_refl).
    vm_compute in H. discriminate H.
Qed.

(** C3, amended: every record of the response whose date is absent or empty
    gets the ISO rendering of the clock as read for that record, k minutes
    earlier for the k-th such record; a record without reactions gets the
    five counters at zero; a non-empty date and given reactions are kept,
    as are the id and the other fields.  When the clock moves on by less
    than a minute between two readings, the synthesized instants decrease
    strictly in insertion order, and so do the date strings as the
    comparator reads them while the years have four digits; when the clock
    reading does not change between two consecutive such records, the date
    of the second is exactly one minute before the date of the first.  Both
    endpoints shape their response this way. *)
Theorem backfill_defaults (clock : Clock) (responseData : list RawPost) :
  getPosts.transformResponse clock responseData =
    postsAdapter.setAll initialState (loadedPosts clock responseData) ∧
  getPostsByUserId.transformResponse clock responseData =
    postsAdapter.setAll initialState (loadedPosts clock responseData) ∧
  length (loadedPosts clock responseData) = length responseData ∧
  (∀ i r, responseData !! i = Some r →
     ∃ p, loadedPosts clock responseData !! i = Some p ∧
       post_id p = raw_id r ∧
       fields p = raw_fields r ∧
       (date_falsy r = true →
          date p = toISOString (synthesized clock (missing_before responseData i))) ∧
       (∀ d, raw_date r = Some d → d ≠ "" → date p = d) ∧
       (raw_reactions r = None →
          reactions p =
            {| thumbsUp := 0; wow := 0; heart := 0; rocket := 0; coffee := 0 |}) ∧
       (∀ x, raw_reactions r = Some x → reactions p = x)) ∧
  ((∀ n, clock (S n) - clock n < msPerMinute) →
     ∀ i j ri rj, (i < j)%nat →
       responseData !! i = Some ri → date_falsy ri = true →
       responseData !! j = Some rj → date_falsy rj = true →
       synthesized clock (missing_before responseData j) <
       synthesized clock (missing_before responseData i)) ∧
  ((∀ n, clock (S n) - clock n < msPerMinute) →
     (∀ k, (k < missing_before responseData (length responseData))%nat →
           minISO ≤ synthesized clock k ≤ maxISO) →
     ∀ i j ri rj p q, (i < j)%nat →
       responseData !! i = Some ri → date_falsy ri = true →
       responseData !! j = Some rj → date_falsy rj = true →
       loadedPosts clock responseData !! i = Some p →
       loadedPosts clock responseData !! j = Some q →
       localeCompare (date q) (date p) < 0) ∧
  (∀ k, clock (S k) = clock k →
     synthesized clock (S k) = synthesized clock k - msPerMinute) ∧
  (∀ i j ri rj p q,
     responseData !! i = Some ri → date_falsy ri = true →
     responseData !! j = Some rj → date_falsy rj = true →
     missing_before responseData j = S (missing_before responseData i) →
     clock (missing_before responseData j) = clock (missing_before responseData i) →
     loadedPosts clock responseData !! i = Some p →
     loadedPosts clock responseData !! j = Some q →
     ∃ t, date p = toISOString t ∧ date q = toISOString (t - msPerMinute)).
Proof.
  split; [reflexivity|]. split; [reflexivity|]. split; [apply loadedPosts_length|].
  split; [|split; [|split; [|split]]].
  - intros i r Hi. eexists. split; [exact (shape_lookup clock 1 0 responseData i r Hi)|].
    simpl. split; [reflexivity|]. split; [reflexivity|]. split; [|split; [|split]].
    + intros ->. unfold synthesized. reflexivity.
    + intros d Hd Hne. unfold date_falsy. rewrite Hd. simpl.
      destruct (String.eqb_spec d ""); [contradiction|reflexivity].
    + intros ->. reflexivity.
    + intros x ->. reflexivity.
  - intros Hstep i j ri rj Hij Hi Hri Hj Hrj.
    apply (synthesized_decreasing clock _ _ Hstep).
    exact (missing_before_lt responseData i j ri Hij Hi Hri).
  - intros Hstep Hrange i j ri rj p q Hij Hi Hri Hj Hrj Hp Hq.
    rewrite (loadedPosts_date_falsy clock responseData i ri p Hi Hri Hp).
    rewrite (loadedPosts_date_falsy clock responseData j rj q Hj Hrj Hq).
    unfold localeCompare.
    rewrite (toISOString_lt (synthesized clock (missing_before responseData j))
               (synthesized clock (missing_before responseData i))); [lia| | |].
    + apply Hrange.
      exact (missing_before_lt responseData j _ rj (lookup_lt_Some _ _ _ Hj) Hj Hrj).
    + apply (synthesized_decreasing clock _ _ Hstep).
      exact (missing_before_lt responseData i j ri Hij Hi Hri).
    + apply Hrange.
      exact (missing_before_lt responseData i _ ri (lookup_lt_Some _ _ _ Hi) Hi Hri).
  - intros k Hsame. unfold synthesized, sub_minutes.
    rewrite Hsame. unfold msPerMinute. lia.
  - intros i j ri rj p q Hi Hri Hj Hrj Hnext Hsame Hp Hq.
    exists (synthesized clock (missing_before responseData i)).
    split; [exact (loadedPosts_date_falsy clock responseData i ri p Hi Hri Hp)|].
    rewrite (loadedPosts_date_falsy clock responseData j rj q Hj Hrj Hq).
    f_equal. rewrite Hnext in Hsame |- *. unfold synthesized, sub_minutes.
    rewrite Hsame. unfold msPerMinute. lia.
Qed.

Lemma sample_clock_step (n : nat) : sample_clock (S n) - sample_clock n < msPerMinute.
Proof. unfold sample_clock, msPerMinute. lia. Qed.

Lemma sample_clock_range (k : nat) :
  (k < missing_before sample_records (length sample_records))%nat →
  minISO ≤ synthesized sample_clock k ≤ maxISO.
Proof.
  intros Hk. change (missing_before sample_records (length sample_records)) with 2%nat in Hk.
  unfold synthesized, sub_minutes, sample_clock, msPerMinute, minISO, maxISO. lia.
Qed.

Lemma backfill_defaults_witness :
  synthesized sample_clock (missing_before sample_records 2) <
    synthesized sample_clock (missing_before sample_records 0) ∧
  localeCompare "2023-11-14T22:11:20.001Z" "2023-11-14T22:12:20.000Z" < 0 ∧
  synthesized sample_clock_frozen 1 = synthesized sample_clock_frozen 0 - msPerMinute ∧
  date <$> loadedPosts sample_clock_frozen sample_undated =
    ["2023-11-14T22:12:20.000Z"; "2023-11-14T22:11:20.000Z"].
Proof.
  pose proof (backfill_defaults sample_clock sample_records) as (_ & _ & _ & _ & H1 & H2 & _).
  pose proof (backfill_defaults sample_clock_frozen sample_undated)
    as (_ & _ & _ & _ & _ & _ & H3 & _).
  split; [|split; [|split; [exact (H3 0%nat eq_refl)|vm_compute; reflexivity]]].
  - apply (H1 sample_clock_step 0%nat 2%nat
             {| raw_id := VNum 1; raw_date := None; raw_reactions := None;
                raw_fields := {[ "title" := VStr "first" ]} |}
             {| raw_id := VNum 3; raw_date := None; raw_reactions := None;
                raw_fields := {[ "title" := VStr "third" ]} |});
      [lia|reflexivity|reflexivity|reflexivity|reflexivity].
  - apply (H2 sample_clock_step sample_clock_range 0%nat 2%nat
             {| raw_id := VNum 1; raw_date := None; raw_reactions := None;
                raw_fields := {[ "title" := VStr "first" ]} |}
             {| raw_id := VNum 3; raw_date := None; raw_reactions := None;
                raw_fields := {[ "title" := VStr "third" ]} |}
             {| post_id := VNum 1; date := "2023-11-14T22:12:20.000Z";
                reactions := zeroReactions; fields := {[ "title" := VStr "first" ]} |}
             {| post_id := VNum 3; date := "2023-11-14T22:11:20.001Z";
                reactions := zeroReactions; fields := {[ "title" := VStr "third" ]} |});
      [lia|reflexivity|reflexivity|reflexivity|reflexivity
      |vm_compute; reflexivity|vm_compute; reflexivity].
Defined.

(* ===================================================================== *)
(** * The entity store                                                    *)
(* ===================================================================== *)

Lemma array_index_pretty (k : string) (n : N) : array_index k = Some n → pretty n = k.
Proof.
  unfold array_index. destruct (digits_value 0 k) as [m|]; [|discriminate].
  destruct (m <=? 4294967294)%N; simpl; [|discriminate].
  destruct (String.eqb_spec (pretty m) k) as [E|]; [|discriminate].
  intros [= <-]. exact E.
Qed.

Lemma own_keys_split (l : list string) :
  (pretty <$> omap array_index l) ++ filter (λ k, array_index k = None) l ≡ₚ l.
Proof.
  induction l as [|k l IH]; [reflexivity|].
  rewrite filter_cons. simpl. destruct (array_index k) as [n|] eqn:E.
  - rewrite decide_False by discriminate. simpl.
    rewrite (array_index_pretty k n E). constructor. exact IH.
  - rewrite decide_True by reflexivity.
    rewrite <- Permutation_middle. constructor. exact IH.
Qed.



Lemma elem_of_created (ks : list string) (k : string) : k ∈ created ks ↔ k ∈ ks.
Proof.
  induction ks as [|k' ks IH]; simpl; [reflexivity|].
  rewrite !elem_of_cons, list_elem_of_filter, IH.
  destruct (decide (k = k')); tauto.
Qed.

Lemma created_NoDup (ks : list string) : NoDup (created ks).
Proof.
  induction ks as [|k ks IH]; simpl; constructor.
  - rewrite list_elem_of_filter. tauto.
  - apply NoDup_filter, IH.
Qed.


Lemma own_keys_perm (ks : list string) : own_keys ks ≡ₚ created ks.
Proof.
  unfold own_keys. rewrite (sort_perm (λ a b : N, Z.of_N a - Z.of_N b)).
  apply own_keys_split.
Qed.

Lemma own_keys_NoDup (ks : list string) : NoDup (own_keys ks).
Proof. rewrite own_keys_perm. apply created_NoDup. Qed.

Lemma elem_of_own_keys (ks : list string) (k : string) : k ∈ own_keys ks ↔ k ∈ ks.
Proof. rewrite own_keys_perm. apply elem_of_created. Qed.


Lemma own_keys_NoDup_perm (ks : list string) : NoDup ks → own_keys ks ≡ₚ ks.
Proof.
  intros Hnd. apply NoDup_Permutation; [apply own_keys_NoDup|exact Hnd|].
  apply elem_of_own_keys.
Qed.



Lemma store_lookup_other (m : gmap string Post) (l : list Post) (k : string) :
  k ∉ (λ p, prop_key (post_id p)) <$> l →
  foldl (λ m p, <[prop_key (postsAdapter.selectId p) := p]> m) m l !! k = m !! k.
Proof.
  revert m. induction l as [|q l IH]; intros m Hk; simpl; [reflexivity|].
  rewrite fmap_cons, not_elem_of_cons in Hk. destruct Hk as [Hq Hl].
  rewrite (IH _ Hl). apply lookup_insert_ne.
  intros E. apply Hq. symmetry. exact E.
Qed.

Lemma store_lookup (m : gmap string Post) (l : list Post) (p : Post) :
  NoDup ((λ p, prop_key (post_id p)) <$> l) → p ∈ l →
  foldl (λ m p, <[prop_key (postsAdapter.selectId p) := p]> m) m l
    !! prop_key (post_id p) = Some p.
Proof.
  revert m. induction l as [|q l IH]; intros m Hnd Hp; [inversion Hp|].
  rewrite fmap_cons in Hnd. apply NoDup_cons in Hnd as [Hq Hnd].
  apply elem_of_cons in Hp as [->|Hp]; simpl.
  - rewrite (store_lookup_other _ l _ Hq). apply lookup_insert_eq.
  - apply (IH _ Hnd Hp).
Qed.

Lemma store_dom (m : gmap string Post) (l : list Post) (k : string) :
  k ∈ dom (foldl (λ m p, <[prop_key (postsAdapter.selectId p) := p]> m) m l) ↔
  k ∈ dom m ∨ k ∈ (λ p, prop_key (post_id p)) <$> l.
Proof.
  revert m. induction l as [|q l IH]; intros m; simpl.
  - rewrite elem_of_nil. tauto.
  - rewrite IH, dom_insert, elem_of_cons, elem_of_union, elem_of_singleton.
    unfold postsAdapter.selectId. tauto.
Qed.


Lemma store_lookup_Some (m : gmap string Post) (l : list Post) (k : string) (p : Post) :
  foldl (λ m p, <[prop_key (postsAdapter.selectId p) := p]> m) m l !! k = Some p →
  m !! k = Some p ∨ (p ∈ l ∧ prop_key (post_id p) = k).
Proof.
  revert m. induction l as [|q l IH]; intros m H; simpl in H; [left; exact H|].
  destruct (IH _ H) as [Hm|[Hl Hk]].
  - apply lookup_insert_Some in Hm as [[Hk ->]|[_ Hm]].
    + right. split; [apply list_elem_of_here|exact Hk].
    + left. exact Hm.
  - right. split; [apply list_elem_of_further, Hl|exact Hk].
Qed.

Lemma Object_values_keys {A : Type} (f : A → string) (obj : gmap string A) (ks : list string) :
  (∀ k, k ∈ ks → ∃ x, obj !! k = Some x ∧ f x = k) →
  f <$> Object_values ks obj = ks.
Proof.
  unfold Object_values. induction ks as [|k ks IH]; intros H; [reflexivity|].
  destruct (H k (list_elem_of_here _ _)) as (x & Hx & Hk).
  simpl. rewrite Hx. simpl. rewrite Hk. f_equal.
  apply IH. intros k' Hk'. apply H, list_elem_of_further, Hk'.
Qed.

Lemma Object_values_fmap {A : Type} (f : A → string) (obj : gmap string A) (l : list A) :
  (∀ x, x ∈ l → obj !! f x = Some x) →
  Object_values (f <$> l) obj = l.
Proof.
  unfold Object_values. induction l as [|x l IH]; intros H; [reflexivity|].
  simpl. rewrite (H x (list_elem_of_here _ _)). f_equal.
  apply IH. intros y Hy. apply H, list_elem_of_further, Hy.
Qed.

Lemma stored_own_key (state : Snapshot) (newEntities : list Post) (k : string) :
  k ∈ own_keys ((λ p, prop_key (post_id p)) <$> newEntities) →
  ∃ p, entities (postsAdapter.setAll state newEntities) !! k = Some p ∧
       prop_key (post_id p) = k.
Proof.
  intros Hk. apply (proj1 (elem_of_own_keys _ _)) in Hk.
  assert (Hd : k ∈ dom (entities (postsAdapter.setAll state newEntities))).
  { apply store_dom. right. exact Hk. }
  apply elem_of_dom in Hd as [p Hp]. exists p. split; [exact Hp|].
  apply store_lookup_Some in Hp as [Hp|[_ Hp]]; [|exact Hp].
  rewrite lookup_empty in Hp. discriminate Hp.
Qed.

(** The values of the store, as [Object.values] lists them, have the own
    keys of the store as their keys, come from the records, and are the
    records themselves when no two records share a key. *)
Lemma allEntities_keys (state : Snapshot) (newEntities : list Post) :
  (λ p, prop_key (post_id p)) <$>
    Object_values (own_keys ((λ p, prop_key (post_id p)) <$> newEntities))
      (entities (postsAdapter.setAll state newEntities))
  = own_keys ((λ p, prop_key (post_id p)) <$> newEntities).
Proof. apply Object_values_keys, stored_own_key. Qed.

Lemma allEntities_elem (state : Snapshot) (newEntities : list Post) (p : Post) :
  p ∈ Object_values (own_keys ((λ p, prop_key (post_id p)) <$> newEntities))
        (entities (postsAdapter.setAll state newEntities)) →
  p ∈ newEntities ∧
  entities (postsAdapter.setAll state newEntities) !! prop_key (post_id p) = Some p.
Proof.
  intros Hp. apply list_elem_of_omap in Hp as (k & _ & Hk).
  destruct (store_lookup_Some _ _ _ _ Hk) as [H|[Hl Hkey]].
  - rewrite lookup_empty in H. discriminate H.
  - split; [exact Hl|]. rewrite Hkey. exact Hk.
Qed.

Lemma allEntities_perm (state : Snapshot) (newEntities : list Post) :
  NoDup ((λ p, prop_key (post_id p)) <$> newEntities) →
  Object_values (own_keys ((λ p, prop_key (post_id p)) <$> newEntities))
    (entities (postsAdapter.setAll state newEntities))
  ≡ₚ newEntities.
Proof.
  intros Hnd. unfold Object_values at 1.
  rewrite (own_keys_NoDup_perm _ Hnd).
  change (Object_values ((λ p, prop_key (post_id p)) <$> newEntities)
            (entities (postsAdapter.setAll state newEntities))
          ≡ₚ newEntities).
  rewrite (Object_values_fmap (λ p, prop_key (post_id p))); [reflexivity|].
  intros p Hp. exact (store_lookup ∅ newEntities p Hnd Hp).
Qed.

Lemma setAll_keys (state : Snapshot) (newEntities : list Post) :
  prop_key <$> ids (postsAdapter.setAll state newEntities) ≡ₚ
  own_keys ((λ p, prop_key (post_id p)) <$> newEntities).
Proof.
  unfold postsAdapter.setAll. simpl. fold_fmap.
  rewrite <- list_fmap_compose.
  rewrite <- (allEntities_keys state newEntities).
  apply (fmap_Permutation (λ p, prop_key (post_id p))), sort_perm.
Qed.



Lemma setAll_ids (state : Snapshot) (newEntities : list Post) :
  NoDup (prop_key <$> (post_id <$> newEntities)) →
  ids (postsAdapter.setAll state newEntities) ≡ₚ post_id <$> newEntities.
Proof.
  intros Hnd. rewrite <- list_fmap_compose in Hnd.
  unfold postsAdapter.setAll. simpl. fold_fmap.
  apply (fmap_Permutation post_id). rewrite sort_perm.
  exact (allEntities_perm state newEntities Hnd).
Qed.

Lemma setAll_dom (state : Snapshot) (newEntities : list Post) (k : string) :
  k ∈ dom (entities (postsAdapter.setAll state newEntities)) ↔
  k ∈ prop_key <$> ids (postsAdapter.setAll state newEntities).
Proof.
  rewrite (setAll_keys state newEntities), elem_of_own_keys.
  unfold postsAdapter.setAll. simpl.
  rewrite store_dom, dom_empty, elem_of_empty. tauto.
Qed.

Lemma setAll_lookup (state : Snapshot) (newEntities : list Post) (p : Post) :
  NoDup (prop_key <$> (post_id <$> newEntities)) → p ∈ newEntities →
  entities (postsAdapter.setAll state newEntities) !! prop_key (post_id p) = Some p.
Proof.
  intros Hnd Hp. unfold postsAdapter.setAll. simpl.
  rewrite <- list_fmap_compose in Hnd. exact (store_lookup ∅ newEntities p Hnd Hp).
Qed.

(** The posts whose ids make up [ids], in that order. *)
Lemma setAll_sorted (state : Snapshot) (newEntities : list Post) :
  ∃ sorted,
    ids (postsAdapter.setAll state newEntities) = post_id <$> sorted ∧
    sorted = sort sortComparer
               (Object_values (own_keys ((λ p, prop_key (post_id p)) <$> newEntities))
                  (entities (postsAdapter.setAll state newEntities))) ∧
    ∀ p, p ∈ sorted →
      p ∈ newEntities ∧
      entities (postsAdapter.setAll state newEntities) !! prop_key (post_id p) = Some p.
Proof.
  eexists. split; [reflexivity|]. split; [reflexivity|].
  intros p Hp. rewrite sort_perm in Hp. exact (allEntities_elem state newEntities p Hp).
Qed.




(* ===================================================================== *)
(** * The tag index and invalidation                                      *)
(* ===================================================================== *)

Lemma tag_key_PostTag (v : JsVal) : tag_key (PostTag v) = ("Post", prop_key v).
Proof. reflexivity. Qed.

(** No number is written with a letter: the only value whose property key
    is [LIST] is the string itself. *)
Lemma pretty_N_go_ne_L (x : N) (s s' : string) :
  s ≠ String "L" s' → pretty_N_go x s ≠ String "L" s'.
Proof.
  revert s. induction (N.lt_wf_0 x) as [x _ IH]; intros s Hs.
  assert (x = 0 ∨ 0 < x)%N as [->|Hx] by lia.
  - rewrite pretty_N_go_0. exact Hs.
  - rewrite pretty_N_go_step by exact Hx. apply IH.
    + apply N.div_lt; [exact Hx|reflexivity].
    + unfold pretty_N_char. repeat case_match; discriminate.
Qed.

Lemma pretty_N_ne_LIST (n : N) : pretty n ≠ "LIST".
Proof.
  unfold pretty, pretty_N. destruct (decide (n = 0%N)); [discriminate|].
  apply pretty_N_go_ne_L. discriminate.
Qed.

Lemma prop_key_LIST (v : JsVal) : prop_key v = "LIST" ↔ v = LIST.
Proof.
  split; [|intros ->; reflexivity].
  destruct v as [| |[|]|n|s|r]; simpl; try discriminate.
  - destruct n as [|n|n]; intros H; exfalso.
    + discriminate H.
    + exact (pretty_N_ne_LIST (N.pos n) H).
    + discriminate H.
  - intros ->. reflexivity.
Qed.

Lemma provides_true (invalidated : list Tag) (e : Entry) :
  api.provides invalidated e = true ↔ tags_meet invalidated (tags e).
Proof.
  unfold api.provides, tags_meet. rewrite bool_decide_eq_true, Exists_exists. split.
  - intros (t & Ht & Hk). apply list_elem_of_fmap in Hk as (t' & E & Ht').
    exists t, t'. auto.
  - intros (t & t' & Ht & Ht' & E). exists t. split; [exact Ht|].
    rewrite E. apply list_elem_of_fmap_2. exact Ht'.
Qed.

Lemma provides_nil (e : Entry) : api.provides [] e = false.
Proof.
  destruct (api.provides [] e) eqn:E; [|reflexivity].
  apply provides_true in E as (t & t' & Ht & _). inversion Ht.
Qed.

Lemma resolve_spec (invalidated : list Tag) (cache : QueryCache) (key : string * string) :
  key ∈ api.resolve invalidated cache ↔
  ∃ e, cache !! key = Some e ∧ tags_meet invalidated (tags e).
Proof.
  unfold api.resolve. rewrite elem_of_dom. unfold is_Some.
  split.
  - intros [e He]. apply map_lookup_filter_Some in He as [He Hp].
    exists e. split; [exact He|]. apply provides_true. exact Hp.
  - intros (e & He & Hp). exists e. apply map_lookup_filter_Some.
    split; [exact He|]. apply provides_true. exact Hp.
Qed.

(** A tag of the type [Post] is met by [{Post, v}] when its id has the key
    of [v]. *)
Lemma tags_meet_PostTag (v : JsVal) (provided : list Tag) :
  tags_meet [PostTag v] provided ↔
  ∃ t, t ∈ provided ∧ type t = "Post" ∧ prop_key (tag_id t) = prop_key v.
Proof.
  unfold tags_meet. split.
  - intros (t & t' & Ht & Ht' & E). apply list_elem_of_singleton in Ht as ->.
    rewrite tag_key_PostTag in E. unfold tag_key in E. injection E as E1 E2.
    exists t'. auto.
  - intros (t & Ht & E1 & E2). exists (PostTag v), t.
    split; [apply list_elem_of_here|]. split; [exact Ht|].
    rewrite tag_key_PostTag. unfold tag_key. rewrite E1, E2. reflexivity.
Qed.

Lemma invalidate_lookup (invalidated : list Tag) (cache : QueryCache) (key : string * string) :
  api.invalidate invalidated cache !! key =
  cache !! key ≫= λ e,
    if api.provides invalidated e then
      if (0 <? subscriberCount e)%nat then
        Some {| status := loading; data := data e; tags := tags e;
                subscriberCount := subscriberCount e |}
      else None
    else Some e.
Proof. unfold api.invalidate. apply map_lookup_imap. Qed.

Lemma invalidate_nil (cache : QueryCache) : api.invalidate [] cache = cache.
Proof.
  apply map_eq. intros key. rewrite invalidate_lookup.
  destruct (cache !! key) as [e|]; [|reflexivity].
  cbn [mbind option_bind]. rewrite provides_nil. reflexivity.
Qed.

Lemma invalidate_stale (invalidated : list Tag) (cache : QueryCache)
    (key : string * string) (e : Entry) :
  cache !! key = Some e → tags_meet invalidated (tags e) →
  api.invalidate invalidated cache !! key =
    if (0 <? subscriberCount e)%nat then
      Some {| status := loading; data := data e; tags := tags e;
              subscriberCount := subscriberCount e |}
    else None.
Proof.
  intros He Hmeet. rewrite invalidate_lookup, He. cbn [mbind option_bind].
  assert (api.provides invalidated e = true) as ->; [|reflexivity].
  apply provides_true. exact Hmeet.
Qed.

Lemma startQuery_absent (key : string * string) (cache : QueryCache) :
  cache !! key = None → (api.startQuery key cache).2 = true.
Proof. intros H. unfold api.startQuery. rewrite H. reflexivity. Qed.

(** A successful mutation leaves a resolved entry re-fetching when it has
    subscribers and drops it otherwise; in both cases the next query of that
    key is not answered from settled cached data. *)
Lemma mutate_fulfilled_stale (invalidated : list Tag) (cache : QueryCache)
    (key : string * string) (e : Entry) :
  cache !! key = Some e → tags_meet invalidated (tags e) →
  let after := api.mutate api.noQueryStarted invalidated Fulfilled cache in
  ((0 < subscriberCount e)%nat →
     ∃ e', after !! key = Some e' ∧ status e' = loading ∧
           subscriberCount e' = subscriberCount e) ∧
  (subscriberCount e = 0%nat →
     after !! key = None ∧ (api.startQuery key after).2 = true).
Proof.
  intros He Hmeet after. subst after. unfold api.mutate, api.noQueryStarted. simpl.
  rewrite (invalidate_stale _ _ _ _ He Hmeet).
  split.
  - intros Hpos. apply Nat.ltb_lt in Hpos. rewrite Hpos. eexists. split; [reflexivity|].
    split; reflexivity.
  - intros Hz. rewrite Hz. simpl. split; [reflexivity|].
    apply startQuery_absent. rewrite (invalidate_stale _ _ _ _ He Hmeet), Hz.
    reflexivity.
Qed.

(** C4: addNewPost declares the invalidation set [{Post, LIST}]; the tags
    provided by a getPosts result contain [{Post, LIST}] and [{Post, id}] for
    every id of the result; so the getPosts entry is among the entries
    resolved for addNewPost, and after a successful addNewPost it is
    re-fetching (with subscribers) or dropped, so that the next query issues
    a transport call. *)
Theorem addNewPost_invalidates_getPosts
    (result : Snapshot) (cache : QueryCache) (e : Entry) :
  cache !! getPostsKey = Some e →
  tags e = getPosts.providesTags result →
  addNewPost.invalidatesTags = [PostTag LIST] ∧
  PostTag LIST ∈ getPosts.providesTags result ∧
  (∀ i, i ∈ ids result → PostTag i ∈ getPosts.providesTags result) ∧
  getPostsKey ∈ api.resolve addNewPost.invalidatesTags cache ∧
  let after := api.mutate api.noQueryStarted addNewPost.invalidatesTags Fulfilled cache in
  ((0 < subscriberCount e)%nat →
     ∃ e', after !! getPostsKey = Some e' ∧ status e' = loading ∧
           subscriberCount e' = subscriberCount e) ∧
  (subscriberCount e = 0%nat →
     after !! getPostsKey = None ∧ (api.startQuery getPostsKey after).2 = true).
Proof.
  intros He Htags.
  assert (Hlist : PostTag LIST ∈ getPosts.providesTags result).
  { unfold getPosts.providesTags, PostTag. apply list_elem_of_here. }
  assert (Hinv : PostTag LIST ∈ addNewPost.invalidatesTags).
  { unfold addNewPost.invalidatesTags, PostTag. apply list_elem_of_here. }
  split; [reflexivity|]. split; [exact Hlist|]. split.
  { intros i Hi. unfold getPosts.providesTags. apply list_elem_of_further.
    apply (list_elem_of_fmap_2 (λ i, {| type := "Post"; tag_id := i |}) _ _ Hi). }
  assert (Hmeet : tags_meet addNewPost.invalidatesTags (tags e)).
  { exists (PostTag LIST), (PostTag LIST). split; [exact Hinv|].
    split; [rewrite Htags; exact Hlist|reflexivity]. }
  split.
  { apply resolve_spec. exists e. split; [exact He|exact Hmeet]. }
  exact (mutate_fulfilled_stale _ _ _ _ He Hmeet).
Qed.

Lemma addNewPost_invalidates_getPosts_witness :
  sample_cache !! getPostsKey = Some sample_entry ∧
  tags sample_entry = getPosts.providesTags sample_snapshot ∧
  getPostsKey ∈ api.resolve addNewPost.invalidatesTags sample_cache.
Proof.
  assert (H1 : sample_cache !! getPostsKey = Some sample_entry)
    by (vm_compute; reflexivity).
  assert (H2 : tags sample_entry = getPosts.providesTags sample_snapshot) by reflexivity.
  split; [exact H1|]. split; [exact H2|].
  exact (proj1 (proj2 (proj2 (proj2
           (addNewPost_invalidates_getPosts sample_snapshot sample_cache sample_entry
              H1 H2))))).
Defined.

(* ===================================================================== *)
(** * Tags of the endpoints                                               *)
(* ===================================================================== *)




(** C6: for an argument carrying an [id], the invalidation tags of deletePost
    and of updatePost are exactly [{Post, arg.id}]; the entries resolved for
    them are exactly the entries providing that tag, which the index looks
    up by its type and the key of its id, and after the mutation succeeded
    each of them is re-fetching or dropped. *)
Theorem delete_update_invalidate_own_tag (arg : gmap string JsVal) (v : JsVal) :
  arg !! "id" = Some v →
  deletePost.invalidatesTags arg = [PostTag v] ∧
  updatePost.invalidatesTags arg = [PostTag v] ∧
  ∀ (cache : QueryCache) (key : string * string),
    (key ∈ api.resolve [PostTag v] cache ↔
       ∃ e t, cache !! key = Some e ∧ t ∈ tags e ∧
              type t = "Post" ∧ prop_key (tag_id t) = prop_key v) ∧
    ∀ e t, cache !! key = Some e → t ∈ tags e →
      type t = "Post" → prop_key (tag_id t) = prop_key v →
      let after := api.mutate api.noQueryStarted [PostTag v] Fulfilled cache in
      ((0 < subscriberCount e)%nat →
         ∃ e', after !! key = Some e' ∧ status e' = loading ∧
               subscriberCount e' = subscriberCount e) ∧
      (subscriberCount e = 0%nat →
         after !! key = None ∧ (api.startQuery key after).2 = true).
Proof.
  intros Hid.
  assert (Hget : js_get arg "id" = v) by (unfold js_get; rewrite Hid; reflexivity).
  split; [unfold deletePost.invalidatesTags; rewrite Hget; reflexivity|].
  split; [unfold updatePost.invalidatesTags; rewrite Hget; reflexivity|].
  intros cache key. split.
  - rewrite resolve_spec. split.
    + intros (e & He & Hmeet). apply tags_meet_PostTag in Hmeet as (t & Ht & E1 & E2).
      exists e, t. auto.
    + intros (e & t & He & Ht & E1 & E2). exists e. split; [exact He|].
      apply tags_meet_PostTag. exists t. auto.
  - intros e t He Ht E1 E2.
    apply (mutate_fulfilled_stale _ _ _ _ He).
    apply tags_meet_PostTag. exists t. auto.
Qed.

Lemma delete_update_invalidate_own_tag_witness :
  ({[ "id" := VStr "2" ]} : gmap string JsVal) !! "id" = Some (VStr "2") ∧
  deletePost.invalidatesTags {[ "id" := VStr "2" ]} = [PostTag (VStr "2")] ∧
  PostTag (VNum 2) ∈ tags sample_entry ∧
  getPostsKey ∈ api.resolve [PostTag (VStr "2")] sample_cache.
Proof.
  assert (H : ({[ "id" := VStr "2" ]} : gmap string JsVal) !! "id" = Some (VStr "2"))
    by reflexivity.
  assert (Htag : PostTag (VNum 2) ∈ tags sample_entry).
  { apply (bool_decide_unpack _). vm_compute. exact I. }
  pose proof (delete_update_invalidate_own_tag {[ "id" := VStr "2" ]} (VStr "2") H)
    as (Hd & _ & Hcache).
  split; [exact H|]. split; [exact Hd|]. split; [exact Htag|].
  apply (proj1 (Hcache sample_cache getPostsKey)).
  exists sample_entry, (PostTag (VNum 2)).
  split; [vm_compute; reflexivity|]. split; [exact Htag|]. split; reflexivity.
Defined.

(* ===================================================================== *)
(** * The request of addNewPost                                           *)
(* ===================================================================== *)

(** C7: the request built by addNewPost has path [/posts], method [POST] and
    a body in which [userId] is the numeric coercion of the argument's
    [userId], [date] is the ISO rendering of the current time, [reactions]
    has its five counters at zero, and every other field is the
    argument's. *)
Theorem addNewPost_request (Number : JsVal → JsVal) (now : Z)
    (initialPost : gmap string JsVal) :
  let request := addNewPost.query Number now initialPost in
  url request = "/posts" ∧
  method request = "POST" ∧
  ∃ b, body request = Some b ∧
    b !! "userId" = Some (Number (js_get initialPost "userId")) ∧
    b !! "date" = Some (VStr (toISOString now)) ∧
    b !! "reactions" =
      Some (VReactions {| thumbsUp := 0; wow := 0; heart := 0; rocket := 0; coffee := 0 |}) ∧
    (∀ k, k ≠ "userId" → k ≠ "date" → k ≠ "reactions" → b !! k = initialPost !! k).
Proof.
  simpl. split; [reflexivity|]. split; [reflexivity|].
  eexists. split; [reflexivity|]. split; [|split; [|split]].
  - rewrite !lookup_insert_ne by discriminate. apply lookup_insert_eq.
  - rewrite lookup_insert_ne by discriminate. apply lookup_insert_eq.
  - apply lookup_insert_eq.
  - intros k H1 H2 H3. rewrite !lookup_insert_ne by congruence. reflexivity.
Qed.

(* ===================================================================== *)
(** * The selectors                                                       *)
(* ===================================================================== *)

(** C8: the three selectors depend on the cache only through the [data] of
    the getPosts entry, and when that entry is absent or holds no data they
    read the empty initial snapshot: no post, no id, no entity. *)
Theorem posts_selectors (state : QueryCache) :
  (∀ state' : QueryCache,
     selectPostsData state' = selectPostsData state →
     selectAllPosts state' = selectAllPosts state ∧
     selectPostIds state' = selectPostIds state ∧
     ∀ i, selectPostById state' i = selectPostById state i) ∧
  (state !! getPostsKey = None ∨ (∃ e, state !! getPostsKey = Some e ∧ data e = None) →
     selectPostsState state = initialState ∧
     selectAllPosts state = [] ∧
     selectPostIds state = [] ∧
     ∀ i, selectPostById state i = None).
Proof.
  split.
  - intros state' H. unfold selectAllPosts, selectPostIds, selectPostById, selectPostsState.
    rewrite H. auto.
  - intros H.
    assert (Hdata : selectPostsData state = None).
    { unfold selectPostsData, selectPostsResult, api.select.
      destruct H as [->|(e & -> & He)]; [reflexivity|exact He]. }
    unfold selectAllPosts, selectPostIds, selectPostById, selectPostsState.
    rewrite Hdata. simpl.
    split; [reflexivity|]. split; [reflexivity|]. split; [reflexivity|].
    intros i. apply lookup_empty.
Qed.

Lemma posts_selectors_witness :
  (∅ : QueryCache) !! getPostsKey = None ∧ selectAllPosts ∅ = [] ∧
  selectPostIds (<[getPostsKey := api.uninitializedEntry]> ∅) = [].
Proof.
  split; [reflexivity|]. split.
  - apply (proj2 (posts_selectors ∅)). left. reflexivity.
  - apply (proj2 (posts_selectors (<[getPostsKey := api.uninitializedEntry]> ∅))).
    right. exists api.uninitializedEntry. split; reflexivity.
Defined.

(* ===================================================================== *)
(** * The optimistic update of addReaction                                *)
(* ===================================================================== *)

Lemma entry_eta (e : Entry) :
  {| status := status e; data := data e; tags := tags e;
     subscriberCount := subscriberCount e |} = e.
Proof. destruct e. reflexivity. Qed.

(** Undoing a patch at once gives back the cache as it was. *)
Lemma undo_updateQueryData (key : string * string) (updateRecipe : Snapshot → Snapshot)
    (cache : QueryCache) :
  api.undo (api.updateQueryData key updateRecipe cache).1
           (api.updateQueryData key updateRecipe cache).2 = cache.
Proof.
  unfold api.updateQueryData.
  destruct (cache !! key) as [e|] eqn:He; [|reflexivity].
  destruct (data e) as [d|] eqn:Hd; [|reflexivity].
  unfold api.undo. simpl. rewrite lookup_insert_eq. simpl.
  rewrite insert_insert_eq. apply insert_id. rewrite He, <- Hd, entry_eta. reflexivity.
Qed.

Lemma updateQueryData_other (key : string * string) (updateRecipe : Snapshot → Snapshot)
    (cache : QueryCache) (k : string * string) :
  k ≠ key → (api.updateQueryData key updateRecipe cache).2 !! k = cache !! k.
Proof.
  intros Hk. unfold api.updateQueryData.
  destruct (cache !! key) as [e|]; [|reflexivity].
  destruct (data e); [|reflexivity].
  simpl. apply lookup_insert_ne. congruence.
Qed.

(** A patch changes the [data] of an entry only. *)
Lemma updateQueryData_lifecycle (key : string * string) (updateRecipe : Snapshot → Snapshot)
    (cache : QueryCache) (k : string * string) :
  (λ e, (status e, tags e, subscriberCount e)) <$>
    (api.updateQueryData key updateRecipe cache).2 !! k =
  (λ e, (status e, tags e, subscriberCount e)) <$> cache !! k.
Proof.
  destruct (decide (k = key)) as [->|Hk]; [|rewrite updateQueryData_other by exact Hk; reflexivity].
  unfold api.updateQueryData.
  destruct (cache !! key) as [e|] eqn:He; [|simpl; rewrite He; reflexivity].
  destruct (data e); [|simpl; rewrite He; reflexivity].
  simpl. rewrite lookup_insert_eq. reflexivity.
Qed.

Lemma updateQueryData_noop (key : string * string) (updateRecipe : Snapshot → Snapshot)
    (cache : QueryCache) :
  (∀ e d, cache !! key = Some e → data e = Some d → updateRecipe d = d) →
  (api.updateQueryData key updateRecipe cache).2 = cache.
Proof.
  intros H. unfold api.updateQueryData.
  destruct (cache !! key) as [e|] eqn:He; [|reflexivity].
  destruct (data e) as [d|] eqn:Hd; [|reflexivity].
  simpl. rewrite (H e d eq_refl Hd). apply insert_id.
  rewrite He, <- Hd, entry_eta. reflexivity.
Qed.

Lemma onQueryStarted_inflight (arg : addReaction.Arg) (outcome : Outcome) (cache : QueryCache) :
  (addReaction.onQueryStarted arg outcome cache).1 =
  (api.updateQueryData getPostsKey (addReaction.updateRecipe arg) cache).2.
Proof.
  unfold addReaction.onQueryStarted.
  destruct (api.updateQueryData getPostsKey (addReaction.updateRecipe arg) cache).
  reflexivity.
Qed.

Lemma onQueryStarted_fulfilled (arg : addReaction.Arg) (cache : QueryCache) :
  (addReaction.onQueryStarted arg Fulfilled cache).2 =
  (api.updateQueryData getPostsKey (addReaction.updateRecipe arg) cache).2.
Proof.
  unfold addReaction.onQueryStarted.
  destruct (api.updateQueryData getPostsKey (addReaction.updateRecipe arg) cache).
  reflexivity.
Qed.

Lemma onQueryStarted_rejected (arg : addReaction.Arg) (cache : QueryCache) :
  (addReaction.onQueryStarted arg Rejected cache).2 = cache.
Proof.
  unfold addReaction.onQueryStarted.
  pose proof (undo_updateQueryData getPostsKey (addReaction.updateRecipe arg) cache) as H.
  destruct (api.updateQueryData getPostsKey (addReaction.updateRecipe arg) cache).
  exact H.
Qed.

(** C1: with the post cached under the getPosts entry, the optimistic patch
    of addReaction makes the readers of the in-flight cache see the
    argument's reactions on that post, every other post and the ids being
    as before; when the transport call rejects, [undo] gives back the cache
    as it was before the patch, so the post reads its former reactions. *)
Theorem addReaction_optimistic_rollback (arg : addReaction.Arg) (cache : QueryCache)
    (e : Entry) (snap : Snapshot) (post : Post) :
  cache !! getPostsKey = Some e →
  data e = Some snap →
  entities snap !! prop_key (addReaction.postId arg) = Some post →
  (∀ outcome,
     let inflight := (addReaction.onQueryStarted arg outcome cache).1 in
     selectPostById inflight (addReaction.postId arg) =
       Some {| post_id := post_id post; date := date post;
               reactions := addReaction.arg_reactions arg; fields := fields post |} ∧
     selectPostIds inflight = ids snap ∧
     (∀ i, prop_key i ≠ prop_key (addReaction.postId arg) →
           selectPostById inflight i = entities snap !! prop_key i)) ∧
  (addReaction.onQueryStarted arg Rejected cache).2 = cache ∧
  selectPostsData (addReaction.onQueryStarted arg Rejected cache).2 = Some snap ∧
  selectPostById (addReaction.onQueryStarted arg Rejected cache).2 (addReaction.postId arg) =
    Some post ∧
  (addReaction.onQueryStarted arg Fulfilled cache).2 =
    (addReaction.onQueryStarted arg Fulfilled cache).1.
Proof.
  intros He Hd Hpost.
  assert (Hdata : selectPostsData cache = Some snap).
  { unfold selectPostsData, selectPostsResult, api.select. rewrite He. exact Hd. }
  split; [|split; [|split; [|split]]].
  - intros outcome inflight. subst inflight. rewrite onQueryStarted_inflight.
    unfold selectPostById, selectPostIds, selectPostsState, selectPostsData,
      selectPostsResult, api.select, api.updateQueryData.
    rewrite He, Hd. simpl. rewrite lookup_insert_eq. simpl.
    unfold addReaction.updateRecipe, postsAdapter.selectById, postsAdapter.selectIds.
    rewrite Hpost. simpl. split; [apply lookup_insert_eq|]. split; [reflexivity|].
    intros i Hi. apply lookup_insert_ne. congruence.
  - apply onQueryStarted_rejected.
  - rewrite onQueryStarted_rejected. exact Hdata.
  - rewrite onQueryStarted_rejected.
    unfold selectPostById, selectPostsState. rewrite Hdata. exact Hpost.
  - rewrite onQueryStarted_fulfilled, onQueryStarted_inflight. reflexivity.
Qed.

Lemma addReaction_optimistic_rollback_witness :
  sample_cache !! getPostsKey = Some sample_entry ∧
  data sample_entry = Some sample_snapshot ∧
  entities sample_snapshot !! prop_key (addReaction.postId sample_arg) = Some sample_post ∧
  (addReaction.onQueryStarted sample_arg Rejected sample_cache).2 = sample_cache.
Proof.
  assert (H1 : sample_cache !! getPostsKey = Some sample_entry)
    by (vm_compute; reflexivity).
  assert (H2 : data sample_entry = Some sample_snapshot) by reflexivity.
  assert (H3 : entities sample_snapshot !! prop_key (addReaction.postId sample_arg)
               = Some sample_post) by (vm_compute; reflexivity).
  split; [exact H1|]. split; [exact H2|]. split; [exact H3|].
  exact (proj1 (proj2 (addReaction_optimistic_rollback sample_arg sample_cache
                         sample_entry sample_snapshot sample_post H1 H2 H3))).
Defined.

(** C9: for a [postId] that is no key of [entities], the update function of
    addReaction returns the draft as it is, and dispatching the patch leaves
    the whole cache as it is, whatever the outcome of the call. *)
Theorem addReaction_unknown_post_noop (arg : addReaction.Arg) (draft : Snapshot) :
  entities draft !! prop_key (addReaction.postId arg) = None →
  addReaction.updateRecipe arg draft = draft ∧
  ∀ (cache : QueryCache) (e : Entry) (outcome : Outcome),
    cache !! getPostsKey = Some e → data e = Some draft →
    addReaction.onQueryStarted arg outcome cache = (cache, cache).
Proof.
  intros Habsent.
  assert (Hrecipe : addReaction.updateRecipe arg draft = draft).
  { unfold addReaction.updateRecipe. rewrite Habsent. reflexivity. }
  split; [exact Hrecipe|].
  intros cache e outcome He Hd.
  assert (Hnoop : (api.updateQueryData getPostsKey (addReaction.updateRecipe arg) cache).2
                  = cache).
  { apply updateQueryData_noop. intros e' d He' Hd'.
    rewrite He in He'. injection He' as <-. rewrite Hd in Hd'. injection Hd' as <-.
    exact Hrecipe. }
  rewrite (surjective_pairing (addReaction.onQueryStarted arg outcome cache)).
  rewrite onQueryStarted_inflight, Hnoop. f_equal.
  destruct outcome.
  - rewrite onQueryStarted_fulfilled. exact Hnoop.
  - apply onQueryStarted_rejected.
Qed.

Lemma addReaction_unknown_post_noop_witness :
  entities sample_snapshot !! prop_key (addReaction.postId sample_unknown_arg) = None ∧
  addReaction.updateRecipe sample_unknown_arg sample_snapshot = sample_snapshot.
Proof.
  assert (H : entities sample_snapshot !! prop_key (addReaction.postId sample_unknown_arg)
              = None) by (vm_compute; reflexivity).
  split; [exact H|].
  exact (proj1 (addReaction_unknown_post_noop sample_unknown_arg sample_snapshot H)).
Defined.

Lemma resolve_nil (cache : QueryCache) : api.resolve [] cache = ∅.
Proof.
  apply set_eq. intros key. rewrite resolve_spec, elem_of_empty.
  split; [|tauto]. intros (e & _ & t & t' & Ht & _). inversion Ht.
Qed.

(** C10: addReaction declares no invalidation tag, so whatever the outcome
    no entry is resolved for invalidation and no entry changes status, tags
    or subscribers or is dropped; every entry other than getPosts(undefined),
    a getPostsByUserId entry in particular, is left as it was. *)
Theorem addReaction_invalidates_nothing (arg : addReaction.Arg) (outcome : Outcome)
    (cache : QueryCache) :
  addReaction.invalidatesTags = [] ∧
  (∀ c : QueryCache, api.resolve addReaction.invalidatesTags c = ∅) ∧
  let after := api.mutate (addReaction.onQueryStarted arg)
                 addReaction.invalidatesTags outcome cache in
  (∀ key, key ≠ getPostsKey → after !! key = cache !! key) ∧
  (∀ userId, after !! getPostsByUserIdKey userId = cache !! getPostsByUserIdKey userId) ∧
  (∀ key, (λ e, (status e, tags e, subscriberCount e)) <$> after !! key =
          (λ e, (status e, tags e, subscriberCount e)) <$> cache !! key).
Proof.
  split; [reflexivity|]. split; [intros c; apply resolve_nil|].
  intros after.
  assert (Hafter : after = cache ∨
            after = (api.updateQueryData getPostsKey (addReaction.updateRecipe arg) cache).2).
  { subst after. unfold api.mutate, addReaction.invalidatesTags. destruct outcome.
    - right. rewrite invalidate_nil. apply onQueryStarted_fulfilled.
    - left. apply onQueryStarted_rejected. }
  assert (Hother : ∀ key, key ≠ getPostsKey → after !! key = cache !! key).
  { intros key Hkey. destruct Hafter as [->| ->]; [reflexivity|].
    apply updateQueryData_other. exact Hkey. }
  split; [exact Hother|]. split.
  - intros userId. apply Hother. unfold getPostsByUserIdKey, getPostsKey. congruence.
  - intros key. destruct Hafter as [->| ->]; [reflexivity|].
    apply updateQueryData_lifecycle.
Qed.

(* ===================================================================== *)
(** * Further properties of the comparator and of the shaping step        *)
(* ===================================================================== *)

(** X1: the comparator puts the later post first.  For two posts whose
    dates are timestamps of the [toISOString] format with four-digit years,
    the comparator is negative exactly when the first post is the later
    one, zero exactly when the instants are the same and positive exactly
    when the first post is the earlier one; exchanging the posts changes
    the sign. *)
Theorem sortComparer_later_first (a b : Post) (ta tb : Z) :
  minISO ≤ ta ≤ maxISO → minISO ≤ tb ≤ maxISO →
  date a = toISOString ta → date b = toISOString tb →
  (sortComparer a b < 0 ↔ tb < ta) ∧
  (sortComparer a b = 0 ↔ ta = tb) ∧
  (0 < sortComparer a b ↔ ta < tb) ∧
  sortComparer b a = - sortComparer a b.
Proof.
  intros Hta Htb Ea Eb. unfold sortComparer, localeCompare. rewrite Ea, Eb.
  destruct (Z.lt_trichotomy ta tb) as [Hlt|[->|Hgt]].
  - assert (H1 : String.compare (toISOString ta) (toISOString tb) = Lt)
      by (apply toISOString_lt; lia).
    assert (H2 : String.compare (toISOString tb) (toISOString ta) = Gt)
      by (rewrite String.compare_antisym, H1; reflexivity).
    rewrite H1, H2. lia.
  - rewrite string_compare_refl. lia.
  - assert (H1 : String.compare (toISOString tb) (toISOString ta) = Lt)
      by (apply toISOString_lt; lia).
    assert (H2 : String.compare (toISOString ta) (toISOString tb) = Gt)
      by (rewrite String.compare_antisym, H1; reflexivity).
    rewrite H1, H2. lia.
Qed.

Lemma sortComparer_later_first_witness :
  date sample_post = toISOString 1699999950000 ∧
  sortComparer sample_post
    {| post_id := VNum 7; date := toISOString 1699999940000;
       reactions := zeroReactions; fields := ∅ |} < 0.
Proof.
  assert (E : date sample_post = toISOString 1699999950000) by (vm_compute; reflexivity).
  split; [exact E|].
  apply (proj1 (sortComparer_later_first sample_post
                  {| post_id := VNum 7; date := toISOString 1699999940000;
                     reactions := zeroReactions; fields := ∅ |}
                  1699999950000 1699999940000
                  ltac:(unfold minISO, maxISO; lia) ltac:(unfold minISO, maxISO; lia)
                  E eq_refl)).
  lia.
Defined.

Lemma shape_clock_ext (clock1 clock2 : Clock) (min : Z) (reads : nat)
    (responseData : list RawPost) :
  (∀ k, (k < missing_before responseData (length responseData))%nat →
        clock1 (reads + k)%nat = clock2 (reads + k)%nat) →
  shape clock1 min reads responseData = shape clock2 min reads responseData.
Proof.
  revert min reads. induction responseData as [|post rest IH]; intros min reads H.
  - reflexivity.
  - simpl. simpl length in H. rewrite missing_before_S in H.
    destruct (date_falsy post) eqn:E.
    + f_equal.
      * f_equal. f_equal. f_equal. specialize (H 0%nat). rewrite Nat.add_0_r in H.
        apply H. lia.
      * apply IH. intros k Hk. specialize (H (S k)).
        replace (S reads + k)%nat with (reads + S k)%nat by lia. apply H. lia.
    + f_equal. apply IH. intros k Hk. apply H. lia.
Qed.

(** X2: the shaping step reads the clock once for every record without a
    date and never otherwise: two clocks that agree on that many readings
    give the same posts and the same snapshots; a payload in which every
    record has a date is shaped the same way under any clock. *)
Theorem shaping_reads_clock_per_undated (clock1 clock2 : Clock)
    (responseData : list RawPost) :
  (∀ k, (k < missing_before responseData (length responseData))%nat →
        clock1 k = clock2 k) →
  loadedPosts clock1 responseData = loadedPosts clock2 responseData ∧
  getPosts.transformResponse clock1 responseData =
    getPosts.transformResponse clock2 responseData ∧
  getPostsByUserId.transformResponse clock1 responseData =
    getPostsByUserId.transformResponse clock2 responseData.
Proof.
  intros H.
  assert (E : loadedPosts clock1 responseData = loadedPosts clock2 responseData).
  { unfold loadedPosts. apply shape_clock_ext. intros k Hk. simpl. apply H. exact Hk. }
  unfold getPosts.transformResponse, getPostsByUserId.transformResponse.
  rewrite E. auto.
Qed.

Lemma sample_clock_stopped_agrees (k : nat) :
  (k < missing_before sample_records (length sample_records))%nat →
  sample_clock k = sample_clock_stopped k.
Proof.
  intros Hk. change (missing_before sample_records (length sample_records)) with 2%nat in Hk.
  unfold sample_clock_stopped. destruct (Nat.ltb_spec k 2); [reflexivity|lia].
Qed.

Lemma shaping_reads_clock_per_undated_witness :
  sample_clock 2%nat = 1700000000002 ∧ sample_clock_stopped 2%nat = 0 ∧
  loadedPosts sample_clock sample_records = loadedPosts sample_clock_stopped sample_records.
Proof.
  split; [reflexivity|]. split; [reflexivity|].
  exact (proj1 (shaping_reads_clock_per_undated sample_clock sample_clock_stopped
                  sample_records sample_clock_stopped_agrees)).
Defined.

Lemma toISOString_nonempty (t : Z) : toISOString t ≠ "".
Proof.
  destruct (toISOString_head t) as [(_ & k & s & E)|(_ & s & [E|E])];
    rewrite E; discriminate.
Qed.

Lemma shape_dates_truthy (clock : Clock) (min : Z) (reads : nat)
    (responseData : list RawPost) :
  Forall (λ p, date_falsy (as_response p) = false) (shape clock min reads responseData).
Proof.
  revert min reads. induction responseData as [|post rest IH]; intros min reads; simpl.
  - constructor.
  - destruct (date_falsy post) eqn:E; constructor; try apply IH.
    + unfold date_falsy, as_response. simpl.
      destruct (String.eqb_spec (toISOString (sub_minutes (clock reads) min)) "") as [H|H];
        [destruct (toISOString_nonempty _ H)|reflexivity].
    + unfold date_falsy in *. simpl. destruct (raw_date post) as [d|]; simpl in *;
        [exact E|discriminate E].
Qed.

(** X3: after the shaping step no post has a falsy date, whatever the
    payload and the clock: the date the comparator reads is never missing
    or empty, and it is the ISO rendering of an instant or the non-empty
    date the record came with. *)
Theorem shaped_dates_truthy (clock : Clock) (responseData : list RawPost) :
  Forall (λ p, date p ≠ "" ∧ date_falsy (as_response p) = false)
         (loadedPosts clock responseData) ∧
  Forall (λ p, (∃ t, date p = toISOString t) ∨
               (∃ r, r ∈ responseData ∧ raw_date r = Some (date p)))
         (loadedPosts clock responseData).
Proof.
  split.
  - pose proof (shape_dates_truthy clock 1 0 responseData) as H.
    unfold loadedPosts. eapply Forall_impl; [exact H|].
    intros p Hp. split; [|exact Hp].
    intros E. unfold date_falsy, as_response in Hp. simpl in Hp. rewrite E in Hp.
    discriminate Hp.
  - apply Forall_forall. intros p Hp.
    apply list_elem_of_lookup in Hp as [i Hi].
    assert (Hlen : (i < length responseData)%nat).
    { rewrite <- (loadedPosts_length clock). exact (lookup_lt_Some _ _ _ Hi). }
    apply lookup_lt_is_Some in Hlen as [r Hr].
    unfold loadedPosts in Hi. rewrite (shape_lookup clock 1 0 _ _ _ Hr) in Hi.
    injection Hi as <-. simpl.
    destruct (date_falsy r) eqn:E; [left; eexists; reflexivity|].
    right. exists r. split; [exact (list_elem_of_lookup_2 _ _ _ Hr)|].
    unfold date_falsy in E. destruct (raw_date r); [reflexivity|discriminate E].
Qed.

Lemma shape_as_response (clock : Clock) (min : Z) (reads : nat) (posts : list Post) :
  Forall (λ p, date_falsy (as_response p) = false) posts →
  shape clock min reads (as_response <$> posts) = posts.
Proof.
  induction posts as [|p posts IH]; intros H; [reflexivity|].
  apply Forall_cons in H as [Hp H]. rewrite fmap_cons. simpl.
  rewrite Hp, (IH H). destruct p. reflexivity.
Qed.

(** X4: shaping is idempotent.  The callback writes the missing fields into
    the records of the response; shaping those records again, under any
    clock, reads no clock and changes nothing. *)
Theorem shaping_idempotent (clock clock' : Clock) (responseData : list RawPost) :
  loadedPosts clock' (as_response <$> loadedPosts clock responseData) =
    loadedPosts clock responseData ∧
  missing_before (as_response <$> loadedPosts clock responseData)
    (length responseData) = 0%nat ∧
  getPosts.transformResponse clock' (as_response <$> loadedPosts clock responseData) =
    getPosts.transformResponse clock responseData.
Proof.
  pose proof (shape_dates_truthy clock 1 0 responseData) as H.
  assert (E : loadedPosts clock' (as_response <$> loadedPosts clock responseData) =
              loadedPosts clock responseData).
  { unfold loadedPosts. apply shape_as_response. exact H. }
  split; [exact E|]. split.
  - unfold missing_before, loadedPosts.
    generalize (length responseData). intros n.
    rewrite <- fmap_take.
    assert (Ht : Forall (λ p, date_falsy (as_response p) = false)
                   (take n (shape clock 1 0 responseData))) by (apply Forall_take; exact H).
    induction Ht as [|p l Hp Hl IH]; [reflexivity|].
    rewrite fmap_cons, filter_cons.
    destruct (decide (date_falsy (as_response p) = true)) as [C|C]; [congruence|exact IH].
  - unfold getPosts.transformResponse. rewrite E. reflexivity.
Qed.

(** A list in the strict order of the comparator is what sorting any of
    its permutations gives. *)
Lemma sorted_unique {A : Type} (compareFn : A → A → Z) (s l : list A) :
  (∀ a b, compareFn a b < 0 → 0 < compareFn b a) →
  s ≡ₚ l →
  StronglySorted (λ a b, compareFn a b ≤ 0) s →
  StronglySorted (λ a b, compareFn a b < 0) l →
  s = l.
Proof.
  intros Hanti. revert s. induction l as [|x l IH]; intros s Hperm Hs Hl.
  - apply Permutation_nil_r. exact Hperm.
  - destruct s as [|h s]; [apply Permutation_nil_cons in Hperm; contradiction|].
    apply StronglySorted_cons in Hs as [Hh Hs]. apply StronglySorted_cons in Hl as [Hx Hl].
    rewrite Forall_forall in Hh, Hx.
    assert (E : h = x).
    { assert (Hin : h ∈ x :: l) by (rewrite <- Hperm; apply list_elem_of_here).
      assert (Hin' : x ∈ h :: s) by (rewrite Hperm; apply list_elem_of_here).
      apply elem_of_cons in Hin as [E|Hin]; [exact E|].
      apply elem_of_cons in Hin' as [E|Hin']; [symmetry; exact E|].
      pose proof (Hanti x h (Hx h Hin)). pose proof (Hh x Hin'). lia. }
    subst h. f_equal. apply IH; [|exact Hs|exact Hl].
    exact (Permutation_cons_inv Hperm).
Qed.

Lemma StronglySorted_lookup_2 {A : Type} (R : A → A → Prop) (l : list A) :
  (∀ i j a b, (i < j)%nat → l !! i = Some a → l !! j = Some b → R a b) →
  StronglySorted R l.
Proof.
  induction l as [|x l IH]; intros H; [constructor|].
  apply StronglySorted_cons. split.
  - apply Forall_forall. intros y Hy. apply list_elem_of_lookup in Hy as [j Hj].
    apply (H 0%nat (S j) x y); [lia|reflexivity|exact Hj].
  - apply IH. intros i j a b Hij Hi Hj. apply (H (S i) (S j) a b); [lia|exact Hi|exact Hj].
Qed.

Lemma loadedPosts_undated_lt (clock : Clock) (responseData : list RawPost)
    (i j : nat) (p q : Post) :
  (∀ n, clock (S n) - clock n < msPerMinute) →
  (∀ k, (k < missing_before responseData (length responseData))%nat →
        minISO ≤ synthesized clock k ≤ maxISO) →
  Forall (λ r, date_falsy r = true) responseData →
  (i < j)%nat →
  loadedPosts clock responseData !! i = Some p →
  loadedPosts clock responseData !! j = Some q →
  sortComparer p q < 0.
Proof.
  intros Hstep Hrange Hall Hij Hp Hq.
  assert (Hi : (i < length responseData)%nat).
  { rewrite <- (loadedPosts_length clock). exact (lookup_lt_Some _ _ _ Hp). }
  assert (Hj : (j < length responseData)%nat).
  { rewrite <- (loadedPosts_length clock). exact (lookup_lt_Some _ _ _ Hq). }
  apply lookup_lt_is_Some in Hi as [ri Hi]. apply lookup_lt_is_Some in Hj as [rj Hj].
  rewrite Forall_forall in Hall.
  pose proof (Hall ri (list_elem_of_lookup_2 _ _ _ Hi)) as Hri.
  pose proof (Hall rj (list_elem_of_lookup_2 _ _ _ Hj)) as Hrj.
  unfold sortComparer, localeCompare.
  rewrite (loadedPosts_date_falsy clock responseData i ri p Hi Hri Hp).
  rewrite (loadedPosts_date_falsy clock responseData j rj q Hj Hrj Hq).
  rewrite (toISOString_lt (synthesized clock (missing_before responseData j))
             (synthesized clock (missing_before responseData i))); [lia| | |].
  - apply Hrange.
    exact (missing_before_lt responseData j _ rj (lookup_lt_Some _ _ _ Hj) Hj Hrj).
  - apply (synthesized_decreasing clock _ _ Hstep).
    exact (missing_before_lt responseData i j ri Hij Hi Hri).
  - apply Hrange.
    exact (missing_before_lt responseData i _ ri (lookup_lt_Some _ _ _ Hi) Hi Hri).
Qed.

(** X5: a payload in which no record has a date and no two records share
    an id keeps its order.  When the clock moves on by less than a minute
    between two readings and the synthesized instants have four-digit
    years, the shaped posts are already in the strict order of the
    comparator, each one before all the later ones, so the ids of the
    snapshot are the ids of the records in the order of the response,
    whatever the order in which the store enumerates them. *)
Theorem undated_payload_keeps_order (clock : Clock) (responseData : list RawPost) :
  (∀ n, clock (S n) - clock n < msPerMinute) →
  (∀ k, (k < missing_before responseData (length responseData))%nat →
        minISO ≤ synthesized clock k ≤ maxISO) →
  Forall (λ r, date_falsy r = true) responseData →
  NoDup (prop_key <$> (raw_id <$> responseData)) →
  StronglySorted (λ p q, sortComparer p q < 0) (loadedPosts clock responseData) ∧
  ids (getPosts.transformResponse clock responseData) = raw_id <$> responseData ∧
  ids (getPostsByUserId.transformResponse clock responseData) = raw_id <$> responseData.
Proof.
  intros Hstep Hrange Hall Hnd.
  assert (Hs : StronglySorted (λ p q, sortComparer p q < 0) (loadedPosts clock responseData)).
  { apply StronglySorted_lookup_2. intros i j p q Hij Hp Hq.
    exact (loadedPosts_undated_lt clock responseData i j p q Hstep Hrange Hall Hij Hp Hq). }
  assert (HndL : NoDup ((λ p, prop_key (post_id p)) <$> loadedPosts clock responseData)).
  { rewrite (list_fmap_compose post_id prop_key).
    unfold loadedPosts. rewrite shape_ids. exact Hnd. }
  assert (Hids : ids (getPosts.transformResponse clock responseData) = raw_id <$> responseData).
  { unfold getPosts.transformResponse, postsAdapter.setAll. simpl. fold_fmap.
    rewrite (sorted_unique sortComparer _ (loadedPosts clock responseData)).
    - apply shape_ids.
    - intros a b Hab. unfold sortComparer, localeCompare in *.
      rewrite (String.compare_antisym (date a) (date b)).
      destruct (String.compare (date b) (date a)); simpl in *; lia.
    - rewrite sort_perm. exact (allEntities_perm initialState _ HndL).
    - apply (sort_sorted sortComparer sortComparer_antisym sortComparer_trans).
    - exact Hs. }
  split; [exact Hs|]. split; exact Hids.
Qed.

Lemma sample_undated_range (k : nat) :
  (k < missing_before sample_undated (length sample_undated))%nat →
  minISO ≤ synthesized sample_clock k ≤ maxISO.
Proof.
  intros Hk. change (missing_before sample_undated (length sample_undated)) with 2%nat in Hk.
  unfold synthesized, sub_minutes, sample_clock, msPerMinute, minISO, maxISO. lia.
Qed.

Lemma undated_payload_keeps_order_witness :
  Forall (λ r, date_falsy r = true) sample_undated ∧
  ids (getPosts.transformResponse sample_clock sample_undated) = [VNum 1; VNum 2].
Proof.
  assert (H : Forall (λ r, date_falsy r = true) sample_undated).
  { repeat constructor. }
  assert (Hnd : NoDup (prop_key <$> (raw_id <$> sample_undated))).
  { apply (bool_decide_unpack _). vm_compute. exact I. }
  split; [exact H|].
  exact (proj1 (proj2 (undated_payload_keeps_order sample_clock sample_undated
                         sample_clock_step sample_undated_range H Hnd))).
Defined.

(* ===================================================================== *)
(** * Which queries a mutation reaches                                    *)
(* ===================================================================== *)

Lemma getPosts_providesTags_cons (result : Snapshot) :
  getPosts.providesTags result = PostTag LIST :: getPostsByUserId.providesTags result.
Proof. reflexivity. Qed.

Lemma PostTag_meets_provided (v : JsVal) (result : Snapshot) :
  tags_meet [PostTag v] (getPostsByUserId.providesTags result) ↔
  prop_key v ∈ prop_key <$> ids result.
Proof.
  rewrite tags_meet_PostTag. unfold getPostsByUserId.providesTags. fold_fmap. split.
  - intros (t & Ht & _ & E). apply list_elem_of_fmap in Ht as (i & -> & Hi).
    simpl in E. rewrite <- E. apply list_elem_of_fmap_2. exact Hi.
  - intros Hv. apply list_elem_of_fmap in Hv as (i & E & Hi).
    exists {| type := "Post"; tag_id := i |}.
    split; [apply list_elem_of_fmap_2; exact Hi|]. split; [reflexivity|].
    simpl. symmetry. exact E.
Qed.

Lemma PostTag_meets_getPosts (v : JsVal) (result : Snapshot) :
  tags_meet [PostTag v] (getPosts.providesTags result) ↔
  v = LIST ∨ prop_key v ∈ prop_key <$> ids result.
Proof.
  rewrite <- PostTag_meets_provided, !tags_meet_PostTag, getPosts_providesTags_cons.
  rewrite <- (prop_key_LIST v). split.
  - intros (t & Ht & E1 & E2). apply elem_of_cons in Ht as [->|Ht].
    + left. symmetry. exact E2.
    + right. exists t. auto.
  - intros [E|(t & Ht & E1 & E2)].
    + exists (PostTag LIST). split; [apply list_elem_of_here|]. split; [reflexivity|].
      symmetry. exact E.
    + exists t. split; [apply list_elem_of_further, Ht|]. auto.
Qed.

(** X6: updating or deleting a post reaches the queries that hold it and
    no other.  With [id] the id carried by the argument, and ids compared
    by their property keys as the tag index does: when it is one of the ids
    of a result, the invalidation tags of updatePost and of deletePost meet
    the tags provided for that result by getPosts and by getPostsByUserId;
    when it is not, and is not the sentinel either, they meet neither. *)
Theorem write_reaches_queries_holding_post (arg : gmap string JsVal) (v : JsVal)
    (result : Snapshot) :
  arg !! "id" = Some v →
  (prop_key v ∈ prop_key <$> ids result →
     tags_meet (updatePost.invalidatesTags arg) (getPosts.providesTags result) ∧
     tags_meet (updatePost.invalidatesTags arg) (getPostsByUserId.providesTags result) ∧
     tags_meet (deletePost.invalidatesTags arg) (getPosts.providesTags result) ∧
     tags_meet (deletePost.invalidatesTags arg) (getPostsByUserId.providesTags result)) ∧
  ((prop_key v ∉ prop_key <$> ids result) → v ≠ LIST →
     ¬ tags_meet (updatePost.invalidatesTags arg) (getPosts.providesTags result) ∧
     ¬ tags_meet (updatePost.invalidatesTags arg) (getPostsByUserId.providesTags result) ∧
     ¬ tags_meet (deletePost.invalidatesTags arg) (getPosts.providesTags result) ∧
     ¬ tags_meet (deletePost.invalidatesTags arg) (getPostsByUserId.providesTags result)).
Proof.
  intros Hid.
  assert (Hget : js_get arg "id" = v) by (unfold js_get; rewrite Hid; reflexivity).
  assert (Hu : updatePost.invalidatesTags arg = [PostTag v])
    by (unfold updatePost.invalidatesTags; rewrite Hget; reflexivity).
  assert (Hd : deletePost.invalidatesTags arg = [PostTag v])
    by (unfold deletePost.invalidatesTags; rewrite Hget; reflexivity).
  rewrite Hu, Hd, PostTag_meets_getPosts, PostTag_meets_provided.
  split.
  - intros Hv. tauto.
  - intros Hv Hlist. tauto.
Qed.

Lemma write_reaches_queries_holding_post_witness :
  ({[ "id" := VStr "2" ]} : gmap string JsVal) !! "id" = Some (VStr "2") ∧
  ids sample_snapshot = [VNum 2; VNum 1; VNum 3] ∧
  tags_meet (deletePost.invalidatesTags {[ "id" := VStr "2" ]})
            (getPostsByUserId.providesTags sample_snapshot).
Proof.
  assert (H : ({[ "id" := VStr "2" ]} : gmap string JsVal) !! "id" = Some (VStr "2"))
    by reflexivity.
  split; [exact H|]. split; [vm_compute; reflexivity|].
  apply (proj1 (write_reaches_queries_holding_post {[ "id" := VStr "2" ]} (VStr "2")
                  sample_snapshot H)).
  apply (bool_decide_unpack _). vm_compute. exact I.
Defined.

(** X7: adding a post never reaches a per-user list.  No record id being
    the sentinel, the invalidation tags of addNewPost meet the tags of a
    getPosts result and meet none of the tags of a getPostsByUserId result:
    an entry of getPostsByUserId is not invalidated by addNewPost. *)
Theorem addNewPost_spares_user_lists (result : Snapshot) :
  (LIST ∉ ids result) →
  tags_meet addNewPost.invalidatesTags (getPosts.providesTags result) ∧
  ¬ tags_meet addNewPost.invalidatesTags (getPostsByUserId.providesTags result) ∧
  ∀ e : Entry, tags e = getPostsByUserId.providesTags result →
               api.provides addNewPost.invalidatesTags e = false.
Proof.
  intros Hlist.
  assert (Hno : ¬ tags_meet addNewPost.invalidatesTags (getPostsByUserId.providesTags result)).
  { intros Hmeet. apply (PostTag_meets_provided LIST result) in Hmeet.
    apply list_elem_of_fmap in Hmeet as (i & E & Hi).
    symmetry in E. apply prop_key_LIST in E as ->. exact (Hlist Hi). }
  split; [|split; [exact Hno|]].
  - exists (PostTag LIST), (PostTag LIST).
    split; [apply list_elem_of_here|]. split; [apply list_elem_of_here|reflexivity].
  - intros e He. destruct (api.provides addNewPost.invalidatesTags e) eqn:E; [|reflexivity].
    exfalso. apply Hno. apply provides_true in E. rewrite <- He. exact E.
Qed.

Lemma addNewPost_spares_user_lists_witness :
  (LIST ∉ ids sample_snapshot) ∧
  tags_meet addNewPost.invalidatesTags (getPosts.providesTags sample_snapshot).
Proof.
  assert (H : LIST ∉ ids sample_snapshot).
  { apply (bool_decide_unpack _). vm_compute. exact I. }
  split; [exact H|].
  exact (proj1 (addNewPost_spares_user_lists sample_snapshot H)).
Defined.

(* ===================================================================== *)
(** * The requests of the other mutations                                 *)
(* ===================================================================== *)

(** X8: the request of updatePost is a PUT to [/posts/<id>] whose body is
    the argument with [date] set to the current time and nothing else
    changed: reactions, userId and id are sent as given, and the id of the
    URL, of the body and of the invalidation tag is one and the same. *)
Theorem updatePost_request (now : Z) (initialPost : gmap string JsVal) :
  let request := updatePost.query now initialPost in
  url request = ("/posts/" ++ prop_key (js_get initialPost "id"))%string ∧
  method request = "PUT" ∧
  ∃ b, body request = Some b ∧
    b !! "date" = Some (VStr (toISOString now)) ∧
    (∀ k, k ≠ "date" → b !! k = initialPost !! k) ∧
    js_get b "id" = js_get initialPost "id" ∧
    updatePost.invalidatesTags initialPost = [PostTag (js_get b "id")].
Proof.
  simpl. split; [reflexivity|]. split; [reflexivity|].
  eexists. split; [reflexivity|].
  assert (Hother : ∀ k, k ≠ "date" →
            <["date" := VStr (toISOString now)]> initialPost !! k = initialPost !! k).
  { intros k Hk. apply lookup_insert_ne. congruence. }
  assert (Hid : js_get (<["date" := VStr (toISOString now)]> initialPost) "id" =
                js_get initialPost "id").
  { unfold js_get. rewrite Hother by discriminate. reflexivity. }
  split; [apply lookup_insert_eq|]. split; [exact Hother|]. split; [exact Hid|].
  unfold updatePost.invalidatesTags. rewrite Hid. reflexivity.
Qed.

(** X9: the request of deletePost is a DELETE to [/posts/<id>] whose body
    holds the field [id] and no other, whatever else the argument carries;
    an argument without [id] sends [undefined] there.  The id of the URL,
    of the body and of the invalidation tag is one and the same. *)
Theorem deletePost_request (arg : gmap string JsVal) :
  let request := deletePost.query arg in
  url request = ("/posts/" ++ prop_key (js_get arg "id"))%string ∧
  method request = "DELETE" ∧
  ∃ b, body request = Some b ∧
    b !! "id" = Some (js_get arg "id") ∧
    (∀ k, k ≠ "id" → b !! k = None) ∧
    (arg !! "id" = None → b !! "id" = Some VUndef) ∧
    deletePost.invalidatesTags arg = [PostTag (js_get b "id")].
Proof.
  simpl. split; [reflexivity|]. split; [reflexivity|].
  eexists. split; [reflexivity|].
  split; [apply lookup_singleton_eq|]. split; [|split].
  - intros k Hk. apply lookup_singleton_ne. congruence.
  - intros Hnone. rewrite lookup_singleton_eq. unfold js_get. rewrite Hnone. reflexivity.
  - unfold deletePost.invalidatesTags, js_get at 2. rewrite lookup_singleton_eq. reflexivity.
Qed.

Lemma string_app_inv_head (p a b : string) : (p ++ a = p ++ b)%string → a = b.
Proof.
  induction p as [|c p IH]; intros H; [exact H|].
  rewrite !string_app_cons in H. injection H as H. exact (IH H).
Qed.

(** X10: the URLs name the post by the property key of its id.  updatePost
    and deletePost address the same URL for the same argument, which is the
    URL of addReaction for that post with a leading slash; two arguments
    get the same URL exactly when their ids have the same key, and so do
    two user ids for getPostsByUserId. *)
Theorem urls_name_the_post (now : Z) (arg arg' : gmap string JsVal)
    (reaction : addReaction.Arg) (i j : JsVal) :
  url (updatePost.query now arg) = url (deletePost.query arg) ∧
  (addReaction.postId reaction = js_get arg "id" →
     url (deletePost.query arg) = ("/" ++ url (addReaction.query reaction))%string) ∧
  (url (deletePost.query arg) = url (deletePost.query arg') ↔
     prop_key (js_get arg "id") = prop_key (js_get arg' "id")) ∧
  (getPostsByUserId.query i = getPostsByUserId.query j ↔ prop_key i = prop_key j).
Proof.
  split; [reflexivity|]. split; [intros E; simpl; rewrite E; reflexivity|]. split.
  - simpl. split; [apply string_app_inv_head|intros ->; reflexivity].
  - unfold getPostsByUserId.query. split; [apply string_app_inv_head|intros ->; reflexivity].
Qed.

(* ===================================================================== *)
(** * The update recipe of addReaction                                    *)
(* ===================================================================== *)

Lemma updateRecipe_lookup (arg : addReaction.Arg) (draft : Snapshot) (k : string) :
  entities (addReaction.updateRecipe arg draft) !! k =
  if decide (k = prop_key (addReaction.postId arg)) then
    (λ post, {| post_id := post_id post; date := date post;
                reactions := addReaction.arg_reactions arg; fields := fields post |})
      <$> entities draft !! k
  else entities draft !! k.
Proof.
  unfold addReaction.updateRecipe.
  destruct (decide (k = prop_key (addReaction.postId arg))) as [->|Hk].
  - destruct (entities draft !! prop_key (addReaction.postId arg)) as [post|] eqn:E; simpl.
    + apply lookup_insert_eq.
    + exact E.
  - destruct (entities draft !! prop_key (addReaction.postId arg)) as [post|] eqn:E; simpl.
    + apply lookup_insert_ne. congruence.
    + reflexivity.
Qed.

Lemma updateRecipe_ids (arg : addReaction.Arg) (draft : Snapshot) :
  ids (addReaction.updateRecipe arg draft) = ids draft.
Proof.
  unfold addReaction.updateRecipe.
  destruct (entities draft !! prop_key (addReaction.postId arg)); reflexivity.
Qed.

Lemma Snapshot_eq (s1 s2 : Snapshot) :
  ids s1 = ids s2 → (∀ k, entities s1 !! k = entities s2 !! k) → s1 = s2.
Proof.
  destruct s1 as [i1 e1], s2 as [i2 e2]. simpl. intros -> H.
  f_equal. apply map_eq. exact H.
Qed.

(** X11: the recipe writes the reactions of one post and nothing else.  It
    keeps the list of ids and the set of keys of [entities], keeps the id,
    the date and the other fields of every post, and leaves every post
    under another key as it was; so the order of the ids by date still
    holds after the patch. *)
Theorem updateRecipe_frame (arg : addReaction.Arg) (draft : Snapshot) :
  ids (addReaction.updateRecipe arg draft) = ids draft ∧
  dom (entities (addReaction.updateRecipe arg draft)) = dom (entities draft) ∧
  (∀ k, k ≠ prop_key (addReaction.postId arg) →
        entities (addReaction.updateRecipe arg draft) !! k = entities draft !! k) ∧
  (∀ k, (post_id <$> entities (addReaction.updateRecipe arg draft) !! k) =
          (post_id <$> entities draft !! k) ∧
        (date <$> entities (addReaction.updateRecipe arg draft) !! k) =
          (date <$> entities draft !! k) ∧
        (fields <$> entities (addReaction.updateRecipe arg draft) !! k) =
          (fields <$> entities draft !! k)).
Proof.
  split; [apply updateRecipe_ids|]. split; [|split].
  - apply set_eq. intros k. rewrite !elem_of_dom, updateRecipe_lookup.
    destruct (decide (k = prop_key (addReaction.postId arg))); [|reflexivity].
    rewrite fmap_is_Some. reflexivity.
  - intros k Hk. rewrite updateRecipe_lookup.
    destruct (decide (k = prop_key (addReaction.postId arg))); [contradiction|reflexivity].
  - intros k. rewrite updateRecipe_lookup.
    destruct (decide (k = prop_key (addReaction.postId arg))); [|auto].
    destruct (entities draft !! k); simpl; auto.
Qed.

(** X12: of two patches of the same post the later one wins, and a patch
    applied twice is the patch applied once. *)
Theorem updateRecipe_overwrites (first second : addReaction.Arg) (draft : Snapshot) :
  prop_key (addReaction.postId first) = prop_key (addReaction.postId second) →
  addReaction.updateRecipe second (addReaction.updateRecipe first draft) =
    addReaction.updateRecipe second draft ∧
  addReaction.updateRecipe second (addReaction.updateRecipe second draft) =
    addReaction.updateRecipe second draft.
Proof.
  assert (H : ∀ a b, prop_key (addReaction.postId a) = prop_key (addReaction.postId b) →
            addReaction.updateRecipe b (addReaction.updateRecipe a draft) =
            addReaction.updateRecipe b draft).
  { intros a b E. apply Snapshot_eq; [rewrite !updateRecipe_ids; reflexivity|].
    intros k. rewrite !updateRecipe_lookup, E.
    destruct (decide (k = prop_key (addReaction.postId b))); [|reflexivity].
    destruct (entities draft !! k); reflexivity. }
  intros E. split; [exact (H first second E)|exact (H second second eq_refl)].
Qed.

Lemma updateRecipe_overwrites_witness :
  prop_key (addReaction.postId sample_arg_by_string) =
    prop_key (addReaction.postId sample_arg) ∧
  addReaction.updateRecipe sample_arg
      (addReaction.updateRecipe sample_arg_by_string sample_snapshot) =
    addReaction.updateRecipe sample_arg sample_snapshot.
Proof.
  assert (H : prop_key (addReaction.postId sample_arg_by_string) =
              prop_key (addReaction.postId sample_arg)) by reflexivity.
  split; [exact H|].
  exact (proj1 (updateRecipe_overwrites sample_arg_by_string sample_arg sample_snapshot H)).
Defined.

(** X13: patches of two different posts commute: the result does not
    depend on the order in which two reactions are applied. *)
Theorem updateRecipe_commutes (one other : addReaction.Arg) (draft : Snapshot) :
  prop_key (addReaction.postId one) ≠ prop_key (addReaction.postId other) →
  addReaction.updateRecipe one (addReaction.updateRecipe other draft) =
  addReaction.updateRecipe other (addReaction.updateRecipe one draft).
Proof.
  intros Hne. apply Snapshot_eq; [rewrite !updateRecipe_ids; reflexivity|].
  intros k. rewrite !updateRecipe_lookup.
  destruct (decide (k = prop_key (addReaction.postId one))) as [->|H1];
    destruct (decide (_ = prop_key (addReaction.postId other))) as [E|H2];
    try reflexivity.
  contradiction.
Qed.

Lemma updateRecipe_commutes_witness :
  prop_key (addReaction.postId sample_arg) ≠ prop_key (addReaction.postId sample_arg_first) ∧
  addReaction.updateRecipe sample_arg
      (addReaction.updateRecipe sample_arg_first sample_snapshot) =
    addReaction.updateRecipe sample_arg_first
      (addReaction.updateRecipe sample_arg sample_snapshot) ∧
  reactions <$> entities (addReaction.updateRecipe sample_arg
                            (addReaction.updateRecipe sample_arg_first sample_snapshot))
                  !! "1" = Some (addReaction.arg_reactions sample_arg_first) ∧
  reactions <$> entities (addReaction.updateRecipe sample_arg
                            (addReaction.updateRecipe sample_arg_first sample_snapshot))
                  !! "2" = Some (addReaction.arg_reactions sample_arg) ∧
  reactions <$> entities sample_snapshot !! "1" = Some zeroReactions ∧
  reactions <$> entities sample_snapshot !! "2" = Some sample_reactions.
Proof.
  assert (H : prop_key (addReaction.postId sample_arg) ≠
              prop_key (addReaction.postId sample_arg_first)).
  { apply (bool_decide_unpack _). vm_compute. exact I. }
  split; [exact H|].
  split; [exact (updateRecipe_commutes sample_arg sample_arg_first sample_snapshot H)|].
  repeat split; vm_compute; reflexivity.
Defined.

(* ===================================================================== *)
(** * What the selectors read after a successful getPosts                 *)
(* ===================================================================== *)

Lemma selectAll_setAll (state : Snapshot) (newEntities : list Post) :
  postsAdapter.selectAll (postsAdapter.setAll state newEntities) =
  Some <$> sort sortComparer
             (Object_values (own_keys ((λ p, prop_key (post_id p)) <$> newEntities))
                (entities (postsAdapter.setAll state newEntities))).
Proof.
  unfold postsAdapter.selectAll. fold_fmap.
  destruct (setAll_sorted state newEntities) as (sorted & -> & <- & Hin).
  rewrite <- list_fmap_compose. apply Forall_fmap_ext, Forall_forall.
  intros p Hp. simpl. unfold postsAdapter.selectById.
  exact (proj2 (Hin p Hp)).
Qed.

(** X15: the selectors read back what the transport returned.  With the
    getPosts entry holding the snapshot made from a response whose ids are
    pairwise distinct: selectPostIds is a rearrangement of the ids of the
    records; selectAllPosts lists the shaped records, each one once and none
    undefined; selectPostById finds, for the id of every record, the shaped
    record itself, and finds nothing for an id that is not in the
    response. *)
Theorem selectors_read_back_response (clock : Clock) (responseData : list RawPost)
    (state : QueryCache) :
  NoDup (prop_key <$> (raw_id <$> responseData)) →
  selectPostsData state = Some (getPosts.transformResponse clock responseData) →
  selectPostIds state ≡ₚ raw_id <$> responseData ∧
  selectAllPosts state ≡ₚ Some <$> loadedPosts clock responseData ∧
  length (selectAllPosts state) = length responseData ∧
  (∀ i r, responseData !! i = Some r →
     ∃ p, loadedPosts clock responseData !! i = Some p ∧
          selectPostById state (raw_id r) = Some p) ∧
  (∀ v, (prop_key v ∉ prop_key <$> (raw_id <$> responseData)) →
        selectPostById state v = None).
Proof.
  intros Hnd Hdata.
  assert (HidL : post_id <$> loadedPosts clock responseData = raw_id <$> responseData)
    by apply shape_ids.
  assert (HndL : NoDup (prop_key <$> (post_id <$> loadedPosts clock responseData)))
    by (rewrite HidL; exact Hnd).
  assert (Hall : selectAllPosts state ≡ₚ Some <$> loadedPosts clock responseData).
  { unfold selectAllPosts, selectPostsState. rewrite Hdata. simpl.
    unfold getPosts.transformResponse. rewrite selectAll_setAll.
    apply fmap_Permutation. rewrite sort_perm. apply allEntities_perm.
    rewrite (list_fmap_compose post_id prop_key). exact HndL. }
  split; [|split; [exact Hall|split; [|split]]].
  - unfold selectPostIds, selectPostsState. rewrite Hdata. simpl.
    rewrite <- HidL. exact (setAll_ids initialState (loadedPosts clock responseData) HndL).
  - rewrite Hall, length_fmap. apply loadedPosts_length.
  - intros i r Hr.
    assert (Hlen : (i < length (loadedPosts clock responseData))%nat).
    { rewrite loadedPosts_length. exact (lookup_lt_Some _ _ _ Hr). }
    apply lookup_lt_is_Some in Hlen as [p Hp]. exists p. split; [exact Hp|].
    assert (Hpid : post_id p = raw_id r).
    { assert (E : (post_id <$> loadedPosts clock responseData) !! i = Some (raw_id r)).
      { rewrite HidL, list_lookup_fmap, Hr. reflexivity. }
      rewrite list_lookup_fmap, Hp in E. injection E as E. exact E. }
    unfold selectPostById, selectPostsState. rewrite Hdata. simpl.
    unfold postsAdapter.selectById, getPosts.transformResponse. rewrite <- Hpid.
    apply setAll_lookup; [exact HndL|]. exact (list_elem_of_lookup_2 _ _ _ Hp).
  - intros v Hv. unfold selectPostById, selectPostsState. rewrite Hdata. simpl.
    unfold postsAdapter.selectById, getPosts.transformResponse.
    apply not_elem_of_dom. rewrite setAll_dom, (setAll_ids _ _ HndL), HidL. exact Hv.
Qed.

Lemma selectors_read_back_response_witness :
  NoDup (prop_key <$> (raw_id <$> sample_records)) ∧
  selectPostsData sample_cache = Some (getPosts.transformResponse sample_clock sample_records) ∧
  length (selectAllPosts sample_cache) = 3%nat.
Proof.
  assert (H1 : NoDup (prop_key <$> (raw_id <$> sample_records))).
  { apply (bool_decide_unpack _). vm_compute. exact I. }
  assert (H2 : selectPostsData sample_cache =
               Some (getPosts.transformResponse sample_clock sample_records))
    by (vm_compute; reflexivity).
  split; [exact H1|]. split; [exact H2|].
  exact (proj1 (proj2 (proj2 (selectors_read_back_response sample_clock sample_records
                                sample_cache H1 H2)))).
Defined.

(* ===================================================================== *)
(** * What addReaction sends and what an empty result provides            *)
(* ===================================================================== *)

(** X16: addReaction shows what it sends.  The request is a PATCH whose
    body holds the field [reactions] and no other, not even the post id;
    the reactions sent are the ones the recipe writes into the cached
    post. *)
Theorem addReaction_sends_what_it_shows (arg : addReaction.Arg) (draft : Snapshot)
    (post : Post) :
  entities draft !! prop_key (addReaction.postId arg) = Some post →
  method (addReaction.query arg) = "PATCH" ∧
  ∃ b r, body (addReaction.query arg) = Some b ∧
    b !! "reactions" = Some (VReactions r) ∧
    (∀ k, k ≠ "reactions" → b !! k = None) ∧
    (reactions <$> entities (addReaction.updateRecipe arg draft)
                     !! prop_key (addReaction.postId arg)) = Some r.
Proof.
  intros Hpost. split; [reflexivity|].
  exists {[ "reactions" := VReactions (addReaction.arg_reactions arg) ]},
         (addReaction.arg_reactions arg).
  split; [reflexivity|]. split; [apply lookup_singleton_eq|]. split.
  - intros k Hk. apply lookup_singleton_ne. congruence.
  - rewrite updateRecipe_lookup.
    destruct (decide _) as [_|H]; [|contradiction].
    rewrite Hpost. reflexivity.
Qed.

Lemma addReaction_sends_what_it_shows_witness :
  entities sample_snapshot !! prop_key (addReaction.postId sample_arg) = Some sample_post ∧
  method (addReaction.query sample_arg) = "PATCH".
Proof.
  assert (H : entities sample_snapshot !! prop_key (addReaction.postId sample_arg)
              = Some sample_post) by (vm_compute; reflexivity).
  split; [exact H|].
  exact (proj1 (addReaction_sends_what_it_shows sample_arg sample_snapshot sample_post H)).
Defined.

(** X17: a result without ids.  An empty payload is shaped into the empty
    snapshot under any clock.  For such a result getPostsByUserId provides
    no tag, so no list of invalidation tags meets it: neither addNewPost nor
    an update or a deletion of any post reaches that entry.  getPosts still
    provides the list tag, which addNewPost meets. *)
Theorem empty_result_tags (clock : Clock) (result : Snapshot) :
  ids result = [] →
  getPosts.transformResponse clock [] = initialState ∧
  ids (getPostsByUserId.transformResponse clock []) = [] ∧
  getPostsByUserId.providesTags result = [] ∧
  (∀ invalidated, ¬ tags_meet invalidated (getPostsByUserId.providesTags result)) ∧
  getPosts.providesTags result = [PostTag LIST] ∧
  tags_meet addNewPost.invalidatesTags (getPosts.providesTags result) ∧
  (∀ arg, js_get arg "id" ≠ LIST →
     ¬ tags_meet (updatePost.invalidatesTags arg) (getPosts.providesTags result) ∧
     ¬ tags_meet (deletePost.invalidatesTags arg) (getPosts.providesTags result)).
Proof.
  intros Hids.
  assert (Hu : getPostsByUserId.providesTags result = []).
  { unfold getPostsByUserId.providesTags. rewrite Hids. reflexivity. }
  assert (Hg : getPosts.providesTags result = [PostTag LIST]).
  { rewrite getPosts_providesTags_cons, Hu. reflexivity. }
  split; [reflexivity|]. split; [reflexivity|]. split; [exact Hu|].
  split; [|split; [exact Hg|split]].
  - intros invalidated (t & t' & _ & Ht & _). rewrite Hu in Ht. inversion Ht.
  - rewrite Hg. exists (PostTag LIST), (PostTag LIST).
    split; [apply list_elem_of_here|]. split; [apply list_elem_of_here|reflexivity].
  - intros arg Hne.
    assert (Hno : ¬ tags_meet [PostTag (js_get arg "id")] (getPosts.providesTags result)).
    { rewrite PostTag_meets_getPosts, Hids. intros [E|Hin]; [exact (Hne E)|].
      inversion Hin. }
    split; exact Hno.
Qed.

Lemma empty_result_tags_witness :
  ids initialState = [] ∧ getPosts.providesTags initialState = [PostTag LIST].
Proof.
  split; [reflexivity|].
  exact (proj1 (proj2 (proj2 (proj2 (proj2
           (empty_result_tags sample_clock initialState eq_refl)))))).
Defined.
